(** * WideColorCtx: wide-colour-gamut context negotiation of the image viewer

    A shallow embedding of [image-view/src/main/cpp/WideColorCtx.cpp]:
    the two static mode tables, the fixed-point colour transform, the gamma
    table builders, and the EGL context negotiator
    ([CreateWideColorCtx(mode)], [CreateWideColorCtx()], [DestroyWideColorCtx]).

    - C++ [float] and [double] values are IEEE-754 binary32 / binary64 values:
      every operation rounds its exact rational result to nearest, ties to
      even, each operation on its own (module [IEEE]).  The library function
      [pow] is a parameter of the table builders.
    - [int32_t], [uint32_t], [uint8_t], [EGLint] are [Z] with the wrap-around
      written out.
    - The engine's fields are a record that is threaded through the
      operations together with the state of the EGL platform. *)

From Stdlib Require Import ZArith QArith Qround Qpower Lqa Lia.
From Stdlib Require Import List Bool String.
From Stdlib Require Floats.SpecFloat.
Import ListNotations.

Local Open Scope Z_scope.

(* ================================================================== *)
(** * IEEE-754 arithmetic on values *)
(* ================================================================== *)

Module IEEE.

(** A floating-point datum.  [Fin q] carries the exact (non-zero) rational
    value of a finite number. *)
Inductive float :=
| NaN
| Inf (neg : bool)
| Zero (neg : bool)
| Fin (q : Q).

(** [prec] is the number of significand bits (implicit one included),
    [emax] the exponent of the infinities. *)
Record format := { prec : Z; emax : Z }.

Definition binary32 := {| prec := 24; emax := 128 |}.
Definition binary64 := {| prec := 53; emax := 1024 |}.

(** Exponent of the least subnormal number: -149 for binary32. *)
Definition emin (fmt : format) : Z := 3 - emax fmt - prec fmt.

Definition pow2 (e : Z) : Q := (2 ^ e)%Q.

(** [ilog2 q] is the integer [k] with [2^k <= q < 2^(k+1)], for [0 < q]. *)
Definition ilog2 (q : Q) : Z :=
  let k := Z.log2 (Qnum q) - Z.log2 (Zpos (Qden q)) in
  if Qle_bool (pow2 k) q then k else k - 1.

(** Exponent of the unit in the last place of the numbers around [q]. *)
Definition cexp (fmt : format) (q : Q) : Z :=
  Z.max (ilog2 q + 1 - prec fmt) (emin fmt).

(** Nearest integer, ties to even. *)
Definition rne (q : Q) : Z :=
  let f := Qfloor q in
  match (q - inject_Z f ?= 1 # 2)%Q with
  | Lt => f
  | Gt => f + 1
  | Eq => if Z.even f then f else f + 1
  end.

(** Rounding of a positive magnitude [a], with the sign [s] put back. *)
Definition round_mag (fmt : format) (s : bool) (a : Q) : float :=
  let c := cexp fmt a in
  let m := rne (a / pow2 c) in
  if m =? 0 then Zero s
  else
    let v := (inject_Z m * pow2 c)%Q in
    if Qle_bool (pow2 (emax fmt)) v then Inf s
    else Fin (Qred (if s then - v else v)).

(** Rounding of an exact non-zero result to the format. *)
Definition round (fmt : format) (q : Q) : float :=
  match Qnum q with
  | Z0 => Zero false
  | Zpos _ => round_mag fmt false q
  | Zneg _ => round_mag fmt true (- q)
  end.

Definition opp (x : float) : float :=
  match x with
  | NaN => NaN
  | Inf s => Inf (negb s)
  | Zero s => Zero (negb s)
  | Fin q => Fin (- q)
  end.

Definition sign_of (q : Q) : bool :=
  match Qnum q with Zneg _ => true | _ => false end.

Definition mul (fmt : format) (x y : float) : float :=
  match x, y with
  | NaN, _ | _, NaN => NaN
  | Inf _, Zero _ | Zero _, Inf _ => NaN
  | Inf sx, Inf sy => Inf (xorb sx sy)
  | Inf sx, Fin b => Inf (xorb sx (sign_of b))
  | Fin a, Inf sy => Inf (xorb (sign_of a) sy)
  | Zero sx, Zero sy => Zero (xorb sx sy)
  | Zero sx, Fin b => Zero (xorb sx (sign_of b))
  | Fin a, Zero sy => Zero (xorb (sign_of a) sy)
  | Fin a, Fin b => round fmt (a * b)
  end.

Definition add (fmt : format) (x y : float) : float :=
  match x, y with
  | NaN, _ | _, NaN => NaN
  | Inf sx, Inf sy => if Bool.eqb sx sy then x else NaN
  | Inf _, _ => x
  | _, Inf _ => y
  | Zero sx, Zero sy => if Bool.eqb sx sy then x else Zero false
  | Zero _, _ => y
  | _, Zero _ => x
  | Fin a, Fin b => round fmt (a + b)
  end.

Definition sub (fmt : format) (x y : float) : float := add fmt x (opp y).

Definition div (fmt : format) (x y : float) : float :=
  match x, y with
  | NaN, _ | _, NaN => NaN
  | Inf _, Inf _ | Zero _, Zero _ => NaN
  | Inf sx, Zero sy => Inf (xorb sx sy)
  | Inf sx, Fin b => Inf (xorb sx (sign_of b))
  | Fin a, Inf sy => Zero (xorb (sign_of a) sy)
  | Zero sx, Inf sy => Zero (xorb sx sy)
  | Fin a, Zero sy => Inf (xorb (sign_of a) sy)
  | Zero sx, Fin b => Zero (xorb sx (sign_of b))
  | Fin a, Fin b => round fmt (a / b)
  end.

(** Position on the extended line; [None] for NaN. *)
Inductive ext := MinusInf | Val (q : Q) | PlusInf.

Definition ext_of (x : float) : option ext :=
  match x with
  | NaN => None
  | Inf s => Some (if s then MinusInf else PlusInf)
  | Zero _ => Some (Val 0)
  | Fin q => Some (Val q)
  end.

Definition ext_ltb (a b : ext) : bool :=
  match a, b with
  | MinusInf, MinusInf => false
  | MinusInf, _ => true
  | _, MinusInf => false
  | PlusInf, _ => false
  | _, PlusInf => true
  | Val p, Val q => negb (Qle_bool q p)
  end.

(** The C comparisons [x < y] and [x > y]: false when an operand is NaN. *)
Definition ltb (x y : float) : bool :=
  match ext_of x, ext_of y with
  | Some a, Some b => ext_ltb a b
  | _, _ => false
  end.

Definition gtb (x y : float) : bool := ltb y x.

(** Conversion of an integer to the format. *)
Definition of_Z (fmt : format) (z : Z) : float := round fmt (inject_Z z).

(** A decimal literal [n / d] of the format. *)
Definition lit (fmt : format) (n : Z) (d : positive) : float := round fmt (n # d).

(** Integral part, rounded toward zero; [None] for NaN and the infinities. *)
Definition trunc (x : float) : option Z :=
  match x with
  | NaN | Inf _ => None
  | Zero _ => Some 0
  | Fin q => Some (if sign_of q then - Qfloor (- q) else Qfloor q)
  end.

Definition leb (x y : float) : bool :=
  match ext_of x, ext_of y with
  | Some a, Some b => negb (ext_ltb b a)
  | _, _ => false
  end.

(** The order of the extended line. *)
Definition ext_le (a b : ext) : Prop :=
  match a, b with
  | MinusInf, _ => True
  | _, PlusInf => True
  | Val p, Val q => (p <= q)%Q
  | _, _ => False
  end.

(** [fle x y]: neither operand is NaN and [x <= y]. *)
Definition fle (x y : float) : Prop :=
  match ext_of x, ext_of y with
  | Some a, Some b => ext_le a b
  | _, _ => False
  end.

(** [x] and [y] denote the same point of the extended line. *)
Definition feq (x y : float) : Prop := fle x y /\ fle y x.

(** The rounded magnitude of [round_mag], as a rational. *)
Definition rmagv (fmt : format) (a : Q) : Q :=
  (inject_Z (rne (a / pow2 (cexp fmt a))) * pow2 (cexp fmt a))%Q.

(** The same datum as a Standard Library [spec_float] of the format (the
    denominator of a finite datum is a power of two). *)
Definition to_spec (fmt : format) (x : float) : SpecFloat.spec_float :=
  match x with
  | NaN => SpecFloat.S754_nan
  | Inf s => SpecFloat.S754_infinity s
  | Zero s => SpecFloat.S754_zero s
  | Fin q =>
      SpecFloat.binary_normalize (prec fmt) (emax fmt)
        (Qnum q) (- Z.log2 (Zpos (Qden q))) false
  end.

Definition of_spec (x : SpecFloat.spec_float) : float :=
  match x with
  | SpecFloat.S754_nan => NaN
  | SpecFloat.S754_infinity s => Inf s
  | SpecFloat.S754_zero s => Zero s
  | SpecFloat.S754_finite s m e =>
      Fin (Qred (inject_Z (SpecFloat.cond_Zopp s (Zpos m)) * pow2 e))
  end.

(** Correctly rounded square root, computed by the Standard Library. *)
Definition sqrt (fmt : format) (x : float) : float :=
  of_spec (SpecFloat.SFsqrt (prec fmt) (emax fmt) (to_spec fmt x)).

End IEEE.

Import IEEE.

(* ================================================================== *)
(** * Integer types and conversions *)
(* ================================================================== *)

(** Two's-complement wrap-around of [int32_t], and the unsigned types. *)
Definition int32 (z : Z) : Z := (z + 2 ^ 31) mod 2 ^ 32 - 2 ^ 31.
Definition uint32 (z : Z) : Z := z mod 2 ^ 32.
Definition uint8 (z : Z) : Z := z mod 2 ^ 8.

Definition add32 (a b : Z) : Z := int32 (a + b).
Definition mul32 (a b : Z) : Z := int32 (a * b).

(** [#define CLIP_COLOR(color, max)
      ((color > max) ? max : ((color > 0) ? color : 0))] on integers ... *)
Definition CLIP_COLOR (color max : Z) : Z :=
  if color >? max then max else if color >? 0 then color else 0.

(** ... and on floating operands (the literal [0] converts to [+0.0]). *)
Definition CLIP_COLOR_f (color max : float) : float :=
  if gtb color max then max
  else if gtb color (Zero false) then color else Zero false.

(** [for (uint32_t idx = lo; idx < hi; idx++) body]. *)
Fixpoint for_loop {S : Type} (n : nat) (idx : Z) (body : Z -> S -> S) (s : S) : S :=
  match n with
  | O => s
  | S n' => for_loop n' (idx + 1) body (body idx s)
  end.

Definition for_range {S : Type} (lo hi : Z) (body : Z -> S -> S) (s : S) : S :=
  for_loop (Z.to_nat (hi - lo)) lo body s.

(** [mathfu::mat3]: [M i j] is the element [transMatrix(i, j)]. *)
Definition mat3 := nat -> nat -> float.

Definition identity3 : mat3 :=
  fun i j => if Nat.eqb i j then Fin 1 else Zero false.

Section Numeric.

  (** A conversion of a floating value to an integer type is undefined in
      C++ when the truncated value does not fit (NaN and the infinities
      included); [fp_invalid x] stands for whatever integer the target then
      leaves in the destination. *)
Variable fp_invalid : float -> Z.

Definition float_to_int (lo hi : Z) (wrap : Z -> Z) (x : float) : Z :=
    match trunc x with
    | Some z => if (lo <=? z) && (z <=? hi) then z else wrap (fp_invalid x)
    | None => wrap (fp_invalid x)
    end.

Definition to_int32 : float -> Z := float_to_int (- 2 ^ 31) (2 ^ 31 - 1) int32.
Definition to_uint32 : float -> Z := float_to_int 0 (2 ^ 32 - 1) uint32.
Definition to_uint8 : float -> Z := float_to_int 0 255 uint8.

  (** [static_cast<int32_t>(transMatrix(i, j) * 1024 + 0.5f)]. *)
Definition fixed10 (c : float) : Z :=
    to_int32 (add binary32 (mul binary32 c (of_Z binary32 1024)) (lit binary32 5 10)).

  (** The [int32_t r, g, b] of [TransformR8G8B8] after [CLIP_COLOR(.., 255)],
      before the [static_cast<uint8_t>]. *)
Definition TransformR8G8B8_clipped (srcR srcG srcB : Z) (transMatrix : mat3)
    : Z * Z * Z :=
    let m00 := fixed10 (transMatrix 0 0)%nat in
    let m01 := fixed10 (transMatrix 0 1)%nat in
    let m02 := fixed10 (transMatrix 0 2)%nat in
    let m10 := fixed10 (transMatrix 1 0)%nat in
    let m11 := fixed10 (transMatrix 1 1)%nat in
    let m12 := fixed10 (transMatrix 1 2)%nat in
    let m20 := fixed10 (transMatrix 2 0)%nat in
    let m21 := fixed10 (transMatrix 2 1)%nat in
    let m22 := fixed10 (transMatrix 2 2)%nat in
    let r := Z.shiftr (add32 (add32 (add32 (mul32 m00 srcR) (mul32 m01 srcG)) (mul32 m02 srcB)) 512) 10 in
    let g := Z.shiftr (add32 (add32 (add32 (mul32 m10 srcR) (mul32 m11 srcG)) (mul32 m12 srcB)) 512) 10 in
    let b := Z.shiftr (add32 (add32 (add32 (mul32 m20 srcR) (mul32 m21 srcG)) (mul32 m22 srcB)) 512) 10 in
    (CLIP_COLOR r 255, CLIP_COLOR g 255, CLIP_COLOR b 255).

  (** [TransformR8G8B8(dst, srcR, srcG, srcB, transMatrix)]: the returned
      flag and the three bytes written to [dst]. *)
Definition TransformR8G8B8 (srcR srcG srcB : Z) (transMatrix : mat3)
    : bool * (Z * Z * Z) :=
    let '(r, g, b) := TransformR8G8B8_clipped srcR srcG srcB transMatrix in
    (true, (uint8 r, uint8 g, uint8 b)).

  (** The platform's [pow(float, float)] and [pow(double, double)]. *)
Variable powf : float -> float -> float.
Variable pow : float -> float -> float.

  (** [uint32_t maxPixeli = (1 << 8) - 1; float maxPixelf = maxPixeli;],
      the first two locals of both table builders. *)
Definition maxPixeli : Z := Z.shiftl 1 8 - 1.
Definition maxPixelf : float := of_Z binary32 maxPixeli.

  (** [idx / maxPixelf], the operand handed to [pow] by the encoder. *)
Definition encode_operand (idx : Z) : float :=
    div binary32 (of_Z binary32 idx) maxPixelf.

  (** What [CreateGammaEncodeTable] does to the value [p] that [pow]
      returned: [val = 1.055f * p - 0.055f; val = val * maxPixeli + 0.5f;
      static_cast<uint8_t>(CLIP_COLOR(val, maxPixelf))]. *)
Definition encode_quantize (p : float) : Z :=
    let val := sub binary32 (mul binary32 (lit binary32 1055 1000) p)
                 (lit binary32 55 1000) in
    let val := add binary64 (mul binary64 val (of_Z binary64 maxPixeli))
                 (lit binary32 5 10) in
    to_uint8 (CLIP_COLOR_f val maxPixelf).

  (** [CreateGammaEncodeTable(gamma, table)]; [None] when the [ASSERT] fails. *)
Definition CreateGammaEncodeTable (gamma : float) (table : list Z) : option (list Z) :=
    if negb (ltb gamma (lit binary32 1 1)) then None
    else
      let maxLinearVal :=
        to_uint32 (mul binary32 (lit binary32 31308 10000000) (of_Z binary32 maxPixeli)) in
      let table := @nil Z in
      let table :=
        for_range 0 maxLinearVal
          (fun idx t =>
             let val := add binary64 (mul binary64 (of_Z binary64 idx) (lit binary64 1292 100))
                          (lit binary32 5 10) in
             t ++ [to_uint8 val]) table in
      let table :=
        for_range maxLinearVal (maxPixeli + 1)
          (fun idx t => t ++ [encode_quantize (powf (encode_operand idx) gamma)]) table in
      Some table.

  (** [CreateGammaDecodeTable(gamma, table)]; [None] when the [ASSERT] fails. *)
Definition CreateGammaDecodeTable (gamma : float) (table : list Z) : option (list Z) :=
    if negb (gtb gamma (lit binary64 1 1)) then None
    else
      let maxLinearVal :=
        to_uint32 (mul binary64 (lit binary64 4045 100000) (of_Z binary64 maxPixeli)) in
      let table :=
        for_range 0 maxLinearVal
          (fun idx t =>
             let val := add binary64 (div binary64 (of_Z binary64 idx) (lit binary64 1292 100))
                          (lit binary32 5 10) in
             t ++ [to_uint8 val]) table in
      let table :=
        for_range maxLinearVal (maxPixeli + 1)
          (fun idx t =>
             let val := div binary32
                          (add binary32 (div binary32 (of_Z binary32 idx) maxPixelf)
                             (lit binary32 55 1000))
                          (lit binary32 1055 1000) in
             let val := add binary64 (mul binary64 (pow val gamma) (of_Z binary64 maxPixeli))
                          (lit binary32 5 10) in
             t ++ [to_uint8 (CLIP_COLOR_f val maxPixelf)]) table in
      Some table.

End Numeric.

(** Values of [pow] that are known exactly: the special cases of C Annex F
    ([pow(x, +-0) = 1], [pow(+1, y) = 1], [pow(+0, y) = +0] for [y > 0] and
    [+inf] for [y < 0]) and the exponents 1/2 (the correctly rounded square
    root) and 1.  [NaN] stands for every other value. *)
Definition pow_ref (fmt : format) (x y : float) : float :=
  match y with
  | Zero _ => Fin 1
  | _ =>
      match x with
      | Fin a =>
          if Qeq_bool a 1 then Fin 1
          else match y with
               | Fin q => if Qeq_bool q (1 # 2) then sqrt fmt x
                          else if Qeq_bool q 1 then x else NaN
               | _ => NaN
               end
      | Zero false =>
          if ltb (Zero false) y then Zero false
          else if ltb y (Zero false) then Inf false else NaN
      | _ => NaN
      end
  end.

(* ================================================================== *)
(** * The mode tables *)
(* ================================================================== *)

Definition EGLint := Z.

(** Tokens of [EGL/egl.h] and [EGL/eglext.h] used by this file. *)
Definition EGL_ALPHA_SIZE : EGLint := 0x3021.
Definition EGL_BLUE_SIZE : EGLint := 0x3022.
Definition EGL_GREEN_SIZE : EGLint := 0x3023.
Definition EGL_RED_SIZE : EGLint := 0x3024.
Definition EGL_NATIVE_VISUAL_ID : EGLint := 0x302E.
Definition EGL_SURFACE_TYPE : EGLint := 0x3033.
Definition EGL_NONE : EGLint := 0x3038.
Definition EGL_RENDERABLE_TYPE : EGLint := 0x3040.
Definition EGL_HEIGHT : EGLint := 0x3056.
Definition EGL_WIDTH : EGLint := 0x3057.
Definition EGL_WINDOW_BIT : EGLint := 0x0004.
Definition EGL_OPENGL_ES3_BIT : EGLint := 0x0040.
Definition EGL_CONTEXT_CLIENT_VERSION : EGLint := 0x3098.
Definition EGL_GL_COLORSPACE_KHR : EGLint := 0x309D.
Definition EGL_GL_COLORSPACE_SRGB_KHR : EGLint := 0x3089.
Definition EGL_COLOR_COMPONENT_TYPE_EXT : EGLint := 0x3339.
Definition EGL_COLOR_COMPONENT_TYPE_FIXED_EXT : EGLint := 0x333A.
Definition EGL_COLOR_COMPONENT_TYPE_FLOAT_EXT : EGLint := 0x333B.
Definition EGL_GL_COLORSPACE_DISPLAY_P3_EXT : EGLint := 0x3363.
Definition EGL_GL_COLORSPACE_DISPLAY_P3_PASSTHROUGH_EXT : EGLint := 0x3490.

(** Modelled from the spec: the enumerations [DISPLAY_COLORSPACE],
    [DISPLAY_FORMAT] and [WIDECOLOR_MODE] are declared in
    [ImageViewEngine.h], which is not part of the sources at hand.  Their
    enumerators are the names this file uses; a [WIDECOLOR_MODE] is the
    ordinal that keys the two parallel tables, so the enumerators are listed
    in the order of the table rows. *)
Inductive DISPLAY_COLORSPACE := INVALID | P3_PASSTHROUGH | P3 | SRGB.

Inductive DISPLAY_FORMAT :=
  R8G8B8A8_REV | R10G10B10_A2_REV | RGBA_FP16 | INVALID_FORMAT.

Inductive WIDECOLOR_MODE :=
| P3_PASSTHROUGH_R8G8B8A8_REV
| P3_PASSTHROUGH_R10G10B10A2_REV
| P3_PASSTHROUGH_FP16
| P3_R8G8B8A8_REV
| P3_R10G10B10A2_REV
| P3_FP16
| SRGBA_R8G8B8A8_REV.

(** The ordinal of an enumerator. *)
Definition mode_index (mode : WIDECOLOR_MODE) : nat :=
  match mode with
  | P3_PASSTHROUGH_R8G8B8A8_REV => 0
  | P3_PASSTHROUGH_R10G10B10A2_REV => 1
  | P3_PASSTHROUGH_FP16 => 2
  | P3_R8G8B8A8_REV => 3
  | P3_R10G10B10A2_REV => 4
  | P3_FP16 => 5
  | SRGBA_R8G8B8A8_REV => 6
  end.

Definition WIDECOLOR_MODE_eqb (a b : WIDECOLOR_MODE) : bool :=
  Nat.eqb (mode_index a) (mode_index b).

Record APP_WIDECOLOR_MODE_CFG := {
  app_space_ : DISPLAY_COLORSPACE;
  app_fmt_ : DISPLAY_FORMAT
}.

Record GL_WIDECOLOR_MODE_CFG := {
  space_ : EGLint;
  r_ : EGLint;
  g_ : EGLint;
  b_ : EGLint;
  a_ : EGLint
}.

Definition appWideColorCfg : list APP_WIDECOLOR_MODE_CFG :=
  [ {| app_space_ := P3_PASSTHROUGH; app_fmt_ := R8G8B8A8_REV |};
    {| app_space_ := P3_PASSTHROUGH; app_fmt_ := R10G10B10_A2_REV |};
    {| app_space_ := P3_PASSTHROUGH; app_fmt_ := RGBA_FP16 |};
    {| app_space_ := P3; app_fmt_ := R8G8B8A8_REV |};
    {| app_space_ := P3; app_fmt_ := R10G10B10_A2_REV |};
    {| app_space_ := P3; app_fmt_ := RGBA_FP16 |};
    {| app_space_ := SRGB; app_fmt_ := R8G8B8A8_REV |} ].

Definition glWideColorCfg : list GL_WIDECOLOR_MODE_CFG :=
  [ {| space_ := EGL_GL_COLORSPACE_DISPLAY_P3_PASSTHROUGH_EXT;
       r_ := 8; g_ := 8; b_ := 8; a_ := 8 |};
    {| space_ := EGL_GL_COLORSPACE_DISPLAY_P3_PASSTHROUGH_EXT;
       r_ := 10; g_ := 10; b_ := 10; a_ := 2 |};
    {| space_ := EGL_GL_COLORSPACE_DISPLAY_P3_PASSTHROUGH_EXT;
       r_ := 16; g_ := 16; b_ := 16; a_ := 16 |};
    {| space_ := EGL_GL_COLORSPACE_DISPLAY_P3_EXT;
       r_ := 8; g_ := 8; b_ := 8; a_ := 8 |};
    {| space_ := EGL_GL_COLORSPACE_DISPLAY_P3_EXT;
       r_ := 10; g_ := 10; b_ := 10; a_ := 2 |};
    {| space_ := EGL_GL_COLORSPACE_DISPLAY_P3_EXT;
       r_ := 16; g_ := 16; b_ := 16; a_ := 16 |};
    {| space_ := EGL_GL_COLORSPACE_SRGB_KHR;
       r_ := 8; g_ := 8; b_ := 8; a_ := 8 |} ].

(** [appWideColorCfg[mode]] and [glWideColorCfg[mode]]. *)
Definition appCfg (mode : WIDECOLOR_MODE) : APP_WIDECOLOR_MODE_CFG :=
  nth (mode_index mode) appWideColorCfg
    {| app_space_ := INVALID; app_fmt_ := INVALID_FORMAT |}.

Definition glCfg (mode : WIDECOLOR_MODE) : GL_WIDECOLOR_MODE_CFG :=
  nth (mode_index mode) glWideColorCfg
    {| space_ := 0; r_ := 0; g_ := 0; b_ := 0; a_ := 0 |}.

(** The attribute list that [CreateWideColorCtx(mode)] hands to
    [eglChooseConfig]. *)
Definition config_attributes (mode : WIDECOLOR_MODE) : list EGLint :=
  let attributes :=
    [ EGL_SURFACE_TYPE; EGL_WINDOW_BIT;
      EGL_RENDERABLE_TYPE; EGL_OPENGL_ES3_BIT;
      EGL_BLUE_SIZE; b_ (glCfg mode);
      EGL_GREEN_SIZE; g_ (glCfg mode);
      EGL_RED_SIZE; r_ (glCfg mode);
      EGL_ALPHA_SIZE; a_ (glCfg mode) ] in
  let attributes :=
    if WIDECOLOR_MODE_eqb mode P3_FP16 then
      (attributes ++ [EGL_COLOR_COMPONENT_TYPE_EXT])
        ++ [EGL_COLOR_COMPONENT_TYPE_FLOAT_EXT]
    else
      (attributes ++ [EGL_COLOR_COMPONENT_TYPE_EXT])
        ++ [EGL_COLOR_COMPONENT_TYPE_FIXED_EXT] in
  attributes ++ [EGL_NONE].

(** A mode is a half-float mode when the application-level format of its
    table row is [RGBA_FP16]. *)
Definition is_half_float_mode (mode : WIDECOLOR_MODE) : bool :=
  match app_fmt_ (appCfg mode) with RGBA_FP16 => true | _ => false end.

(** The component type requested in an attribute list: the value that
    follows the key [EGL_COLOR_COMPONENT_TYPE_EXT]. *)
Fixpoint attribute_value (key : EGLint) (attributes : list EGLint) : option EGLint :=
  match attributes with
  | k :: v :: rest => if k =? key then Some v else attribute_value key rest
  | _ => None
  end.

(* ================================================================== *)
(** * The engine and the EGL platform *)
(* ================================================================== *)

(** Handles are opaque pointers; the null handle is [EGL_NO_DISPLAY],
    [EGL_NO_CONTEXT], [EGL_NO_SURFACE]. *)
Definition EGLDisplay := Z.
Definition EGLContext := Z.
Definition EGLSurface := Z.
Definition EGLConfig := Z.

Definition EGL_NO_DISPLAY : EGLDisplay := 0.
Definition EGL_NO_CONTEXT : EGLContext := 0.
Definition EGL_NO_SURFACE : EGLSurface := 0.

(** The members of [ImageViewEngine] that this file reads or writes. *)
Record ImageViewEngine := {
  display_ : EGLDisplay;
  surface_ : EGLSurface;
  eglContext_ : EGLContext;
  renderTargetWidth_ : EGLint;
  renderTargetHeight_ : EGLint;
  dispColorSpace_ : DISPLAY_COLORSPACE;
  dispFormat_ : DISPLAY_FORMAT
}.

Definition set_display_ (v : EGLDisplay) (e : ImageViewEngine) :=
  {| display_ := v; surface_ := surface_ e; eglContext_ := eglContext_ e;
     renderTargetWidth_ := renderTargetWidth_ e;
     renderTargetHeight_ := renderTargetHeight_ e;
     dispColorSpace_ := dispColorSpace_ e; dispFormat_ := dispFormat_ e |}.

Definition set_surface_ (v : EGLSurface) (e : ImageViewEngine) :=
  {| display_ := display_ e; surface_ := v; eglContext_ := eglContext_ e;
     renderTargetWidth_ := renderTargetWidth_ e;
     renderTargetHeight_ := renderTargetHeight_ e;
     dispColorSpace_ := dispColorSpace_ e; dispFormat_ := dispFormat_ e |}.

Definition set_eglContext_ (v : EGLContext) (e : ImageViewEngine) :=
  {| display_ := display_ e; surface_ := surface_ e; eglContext_ := v;
     renderTargetWidth_ := renderTargetWidth_ e;
     renderTargetHeight_ := renderTargetHeight_ e;
     dispColorSpace_ := dispColorSpace_ e; dispFormat_ := dispFormat_ e |}.

Definition set_renderTargetWidth_ (v : EGLint) (e : ImageViewEngine) :=
  {| display_ := display_ e; surface_ := surface_ e; eglContext_ := eglContext_ e;
     renderTargetWidth_ := v;
     renderTargetHeight_ := renderTargetHeight_ e;
     dispColorSpace_ := dispColorSpace_ e; dispFormat_ := dispFormat_ e |}.

Definition set_renderTargetHeight_ (v : EGLint) (e : ImageViewEngine) :=
  {| display_ := display_ e; surface_ := surface_ e; eglContext_ := eglContext_ e;
     renderTargetWidth_ := renderTargetWidth_ e;
     renderTargetHeight_ := v;
     dispColorSpace_ := dispColorSpace_ e; dispFormat_ := dispFormat_ e |}.

Definition set_dispColorSpace_ (v : DISPLAY_COLORSPACE) (e : ImageViewEngine) :=
  {| display_ := display_ e; surface_ := surface_ e; eglContext_ := eglContext_ e;
     renderTargetWidth_ := renderTargetWidth_ e;
     renderTargetHeight_ := renderTargetHeight_ e;
     dispColorSpace_ := v; dispFormat_ := dispFormat_ e |}.

Definition set_dispFormat_ (v : DISPLAY_FORMAT) (e : ImageViewEngine) :=
  {| display_ := display_ e; surface_ := surface_ e; eglContext_ := eglContext_ e;
     renderTargetWidth_ := renderTargetWidth_ e;
     renderTargetHeight_ := renderTargetHeight_ e;
     dispColorSpace_ := dispColorSpace_ e; dispFormat_ := v |}.

(** Modelled from the spec: the constructor of [ImageViewEngine] is not part
    of the sources at hand; the engine starts in the state the spec calls
    UNINITIALIZED, every handle null, colour space and format invalid, and
    an empty render target. *)
Definition engine_uninitialized : ImageViewEngine :=
  {| display_ := EGL_NO_DISPLAY; surface_ := EGL_NO_SURFACE;
     eglContext_ := EGL_NO_CONTEXT;
     renderTargetWidth_ := 0; renderTargetHeight_ := 0;
     dispColorSpace_ := INVALID; dispFormat_ := INVALID_FORMAT |}.

(** The part of the platform that the calls of this file change: which
    context and surface objects exist, what is bound to the calling thread,
    whether the display connection is initialised, the buffer format of the
    native window, and the next handle the implementation gives out (a
    handle it gives out is never null). *)
Record EglWorld := {
  initialized : bool;
  contexts : list EGLContext;
  surfaces : list EGLSurface;
  current : EGLSurface * EGLSurface * EGLContext;
  window_format : option EGLint;
  next_handle : positive
}.

(** What the EGL implementation and the window answer; every answer may
    depend on the state of the platform. *)
Record Driver := {
  drv_display : EglWorld -> EGLDisplay;
  drv_initialize : EglWorld -> EGLDisplay -> bool;
  drv_extensions : EglWorld -> EGLDisplay -> option string;
  drv_configs : EglWorld -> EGLDisplay -> list EGLint -> option (list EGLConfig);
  drv_context_ok : EglWorld -> EGLDisplay -> EGLConfig -> list EGLint -> bool;
  drv_config_attrib : EglWorld -> EGLDisplay -> EGLConfig -> EGLint -> EGLint;
  drv_set_geometry : EglWorld -> EGLint -> Z;
  drv_surface_ok : EglWorld -> EGLDisplay -> EGLConfig -> list EGLint -> bool;
  drv_make_current_ok :
    EglWorld -> EGLDisplay -> EGLSurface -> EGLSurface -> EGLContext -> bool;
  drv_surface_attrib : EglWorld -> EGLDisplay -> EGLSurface -> EGLint -> option EGLint
}.

(** The result of a call: it returns, or the process is aborted (a failed
    [ASSERT], a null pointer handed to [std::string]). *)
Inductive outcome (A : Type) :=
| Returned (a : A) (st : ImageViewEngine) (w : EglWorld)
| Aborted.

Arguments Returned {A} a st w.
Arguments Aborted {A}.

(** [modes[i] = v] on a C array. *)
Definition array_set {A : Type} (i : nat) (v : A) (l : list A) : list A :=
  firstn i l ++ v :: skipn (S i) l.

(** The loop of [CheckRequiredEGLExt]: [std::string::find] of every required
    name in the extension string, false at the first one that is missing. *)
Fixpoint all_found (eglExt : string) (exts : list string) : bool :=
  match exts with
  | [] => true
  | ext :: rest =>
      match String.index 0 ext eglExt with
      | None => false
      | Some _ => all_found eglExt rest
      end
  end.

Definition passthruExt : list string :=
  [ "EGL_KHR_gl_colorspace"%string;
    "GL_EXT_gl_colorspace_display_p3_passthrough"%string ].

Definition p3Exts : list string :=
  [ "EGL_KHR_gl_colorspace"%string;
    "EGL_EXT_gl_colorspace_display_p3"%string ].

Section Negotiator.

Variable drv : Driver.

  (** ** The EGL calls *)

Definition eglGetDisplay (w : EglWorld) : EGLDisplay := drv_display drv w.

Definition eglInitialize (w : EglWorld) (dpy : EGLDisplay) : bool * EglWorld :=
    if drv_initialize drv w dpy then
      (true, {| initialized := true; contexts := contexts w; surfaces := surfaces w;
                current := current w; window_format := window_format w;
                next_handle := next_handle w |})
    else (false, w).

  (** [eglTerminate] closes the connection.  The two lists are left as they
      are, although EGL releases with the connection whatever the program
      did not destroy: after a termination they tell which objects the
      program has not destroyed by a call of its own. *)
Definition eglTerminate (w : EglWorld) (dpy : EGLDisplay) : EglWorld :=
    {| initialized := false; contexts := contexts w; surfaces := surfaces w;
       current := current w; window_format := window_format w;
       next_handle := next_handle w |}.

  (** [eglChooseConfig(dpy, attrib_list, &config, config_size, &num_config)]:
      the status, and the values left in [config] and [num_config]. *)
Definition eglChooseConfig (w : EglWorld) (dpy : EGLDisplay)
      (attrib_list : list EGLint) (config : EGLConfig) (config_size : Z)
      (num_config : EGLint) : bool * EGLConfig * EGLint :=
    match drv_configs drv w dpy attrib_list with
    | None => (false, config, num_config)
    | Some matching =>
        let written := firstn (Z.to_nat config_size) matching in
        (true, hd config written, Z.of_nat (List.length written))
    end.

Definition eglCreateContext (w : EglWorld) (dpy : EGLDisplay) (config : EGLConfig)
      (share : EGLContext) (attrib_list : list EGLint) : EGLContext * EglWorld :=
    if drv_context_ok drv w dpy config attrib_list then
      (Zpos (next_handle w),
       {| initialized := initialized w;
          contexts := Zpos (next_handle w) :: contexts w; surfaces := surfaces w;
          current := current w; window_format := window_format w;
          next_handle := Pos.succ (next_handle w) |})
    else (EGL_NO_CONTEXT, w).

Definition eglDestroyContext (w : EglWorld) (dpy : EGLDisplay) (ctx : EGLContext)
    : EglWorld :=
    {| initialized := initialized w;
       contexts := remove Z.eq_dec ctx (contexts w); surfaces := surfaces w;
       current := current w; window_format := window_format w;
       next_handle := next_handle w |}.

Definition eglCreateWindowSurface (w : EglWorld) (dpy : EGLDisplay)
      (config : EGLConfig) (attrib_list : list EGLint) : EGLSurface * EglWorld :=
    if drv_surface_ok drv w dpy config attrib_list then
      (Zpos (next_handle w),
       {| initialized := initialized w;
          contexts := contexts w; surfaces := Zpos (next_handle w) :: surfaces w;
          current := current w; window_format := window_format w;
          next_handle := Pos.succ (next_handle w) |})
    else (EGL_NO_SURFACE, w).

Definition eglDestroySurface (w : EglWorld) (dpy : EGLDisplay) (s : EGLSurface)
    : EglWorld :=
    {| initialized := initialized w;
       contexts := contexts w; surfaces := remove Z.eq_dec s (surfaces w);
       current := current w; window_format := window_format w;
       next_handle := next_handle w |}.

Definition eglMakeCurrent (w : EglWorld) (dpy : EGLDisplay)
      (draw read : EGLSurface) (ctx : EGLContext) : bool * EglWorld :=
    if drv_make_current_ok drv w dpy draw read ctx then
      (true, {| initialized := initialized w;
                contexts := contexts w; surfaces := surfaces w;
                current := (draw, read, ctx); window_format := window_format w;
                next_handle := next_handle w |})
    else (false, w).

Definition eglGetConfigAttrib (w : EglWorld) (dpy : EGLDisplay)
      (config : EGLConfig) (attribute : EGLint) : EGLint :=
    drv_config_attrib drv w dpy config attribute.

  (** [eglQuerySurface(dpy, s, attribute, &value)]: the value left in
      [value]. *)
Definition eglQuerySurface (w : EglWorld) (dpy : EGLDisplay) (s : EGLSurface)
      (attribute : EGLint) (value : EGLint) : EGLint :=
    match drv_surface_attrib drv w dpy s attribute with
    | Some v => v
    | None => value
    end.

  (** [ANativeWindow_setBuffersGeometry(app_->window, width, height, format)]. *)
Definition ANativeWindow_setBuffersGeometry (w : EglWorld)
      (width height : Z) (format : EGLint) : Z * EglWorld :=
    let res := drv_set_geometry drv w format in
    if res <? 0 then (res, w)
    else (res, {| initialized := initialized w;
                  contexts := contexts w; surfaces := surfaces w;
                  current := current w; window_format := Some format;
                  next_handle := next_handle w |}).

  (** ** [CheckRequiredEGLExt] *)

  (** [None] when [eglQueryString] returns a null pointer, from which the
      [std::string] cannot be built. *)
Definition CheckRequiredEGLExt (w : EglWorld) (disp : EGLDisplay)
      (exts : list string) : option bool :=
    match drv_extensions drv w disp with
    | None => None
    | Some eglExt => Some (all_found eglExt exts)
    end.

  (** ** [ImageViewEngine::CreateWideColorCtx(WIDECOLOR_MODE mode)]

      The head of the function (the colour-space matrices, the two gamma
      tables and the conversion loop, whose results are only logged) touches
      neither the engine nor EGL, and the gammas it hands to the table
      builders come from a header that is not among the sources: it is left
      out.  The definition is the function from its attribute list on; it
      says nothing about an [ASSERT] of a table builder stopping the call
      before that point. *)
Definition CreateWideColorCtx_mode (mode : WIDECOLOR_MODE)
      (st : ImageViewEngine) (w : EglWorld) : outcome bool :=
    let attributes := config_attributes mode in
    let '(status, config, cfgCount) :=
      eglChooseConfig w (display_ st) attributes 0 1 1 in
    if negb status || negb (cfgCount =? 1) then Returned false st w
    else
      let attributes := [EGL_CONTEXT_CLIENT_VERSION; 3; EGL_NONE] in
      let '(ctx, w) := eglCreateContext w (display_ st) config EGL_NO_CONTEXT attributes in
      let st := set_eglContext_ ctx st in
      if eglContext_ st =? EGL_NO_CONTEXT then Returned false st w
      else
        let format := eglGetConfigAttrib w (display_ st) config EGL_NATIVE_VISUAL_ID in
        let '(res, w) := ANativeWindow_setBuffersGeometry w 0 0 format in
        if res <? 0 then
          let w := eglDestroyContext w (display_ st) (eglContext_ st) in
          let st := set_eglContext_ EGL_NO_CONTEXT st in
          Returned false st w
        else
          let attributes := [EGL_GL_COLORSPACE_KHR; space_ (glCfg mode); EGL_NONE] in
          let '(surf, w) := eglCreateWindowSurface w (display_ st) config attributes in
          let st := set_surface_ surf st in
          if surface_ st =? EGL_NO_SURFACE then
            let w := eglDestroyContext w (display_ st) (eglContext_ st) in
            let st := set_eglContext_ EGL_NO_CONTEXT st in
            Returned false st w
          else
            let '(status, w) :=
              eglMakeCurrent w (display_ st) (surface_ st) (surface_ st) (eglContext_ st) in
            if negb status then Aborted
            else
              let st := set_dispColorSpace_ (app_space_ (appCfg mode)) st in
              let st := set_dispFormat_ (app_fmt_ (appCfg mode)) st in
              let st := set_renderTargetWidth_
                          (eglQuerySurface w (display_ st) (surface_ st) EGL_WIDTH
                             (renderTargetWidth_ st)) st in
              let st := set_renderTargetHeight_
                          (eglQuerySurface w (display_ st) (surface_ st) EGL_HEIGHT
                             (renderTargetHeight_ st)) st in
              Returned true st w.

  (** [for (auto mode : modes) if (CreateWideColorCtx(mode)) return true;
      return false;] *)
Fixpoint try_modes (modes : list WIDECOLOR_MODE) (st : ImageViewEngine)
      (w : EglWorld) : outcome bool :=
    match modes with
    | [] => Returned false st w
    | mode :: rest =>
        match CreateWideColorCtx_mode mode st w with
        | Returned true st' w' => Returned true st' w'
        | Returned false st' w' => try_modes rest st' w'
        | Aborted => Aborted
        end
    end.

  (** ** [ImageViewEngine::CreateWideColorCtx(void)] *)
Definition CreateWideColorCtx (st : ImageViewEngine) (w : EglWorld) : outcome bool :=
    let st := set_display_ (eglGetDisplay w) st in
    let '(_, w) := eglInitialize w (display_ st) in
    let modes :=
      [P3_R8G8B8A8_REV; P3_R10G10B10A2_REV; P3_FP16; SRGBA_R8G8B8A8_REV] in
    match CheckRequiredEGLExt w (display_ st) passthruExt with
    | None => Aborted
    | Some true =>
        let modes := array_set 0 P3_PASSTHROUGH_R8G8B8A8_REV modes in
        let modes := array_set 1 P3_PASSTHROUGH_R10G10B10A2_REV modes in
        let modes := array_set 2 P3_PASSTHROUGH_FP16 modes in
        try_modes modes st w
    | Some false =>
        match CheckRequiredEGLExt w (display_ st) p3Exts with
        | None => Aborted
        | Some false => CreateWideColorCtx_mode SRGBA_R8G8B8A8_REV st w
        | Some true => try_modes modes st w
        end
    end.

  (** ** [ImageViewEngine::DestroyWideColorCtx()] *)
Definition DestroyWideColorCtx (st : ImageViewEngine) (w : EglWorld)
    : ImageViewEngine * EglWorld :=
    if display_ st =? EGL_NO_DISPLAY then (st, w)
    else
      let '(_, w) :=
        eglMakeCurrent w (display_ st) EGL_NO_SURFACE EGL_NO_SURFACE EGL_NO_CONTEXT in
      let w :=
        if negb (eglContext_ st =? EGL_NO_CONTEXT)
        then eglDestroyContext w (display_ st) (eglContext_ st) else w in
      let w :=
        if negb (surface_ st =? EGL_NO_SURFACE)
        then eglDestroySurface w (display_ st) (surface_ st) else w in
      let w := eglTerminate w (display_ st) in
      let st := set_display_ EGL_NO_DISPLAY st in
      let st := set_eglContext_ EGL_NO_CONTEXT st in
      let st := set_surface_ EGL_NO_SURFACE st in
      let st := set_dispColorSpace_ INVALID st in
      let st := set_dispFormat_ INVALID_FORMAT st in
      (st, w).

End Negotiator.

(** The integers [lo, lo + 1, ..., lo + n - 1] that a counting loop visits. *)
Fixpoint zrange (lo : Z) (n : nat) : list Z :=
  match n with
  | O => []
  | S n' => lo :: zrange (lo + 1) n'
  end.

(** The clamp [CLIP_COLOR(val, 255.0f)] followed by the conversion to
    [uint8_t], on the extended line. *)
Definition clipq (e : ext) : Z :=
  match e with
  | MinusInf => 0
  | PlusInf => 255
  | Val q => if Qle_bool q 0 then 0 else if Qle_bool q 255 then Qfloor q else 255
  end.

(** The nearest integer of the spec's [round(coeff * 1024)], halves away
    from zero as C's [round] does. *)
Definition nearest_integer (q : Q) : Z :=
  if sign_of q then - Qfloor (- q + (1 # 2)) else Qfloor (q + (1 # 2)).

(* ================================================================== *)
(** * The negotiation in the words of the specification *)
(* ================================================================== *)

Definition passthrough_chain : list WIDECOLOR_MODE :=
  [P3_PASSTHROUGH_R8G8B8A8_REV; P3_PASSTHROUGH_R10G10B10A2_REV; P3_PASSTHROUGH_FP16].

Definition wide_gamut_chain : list WIDECOLOR_MODE :=
  [P3_R8G8B8A8_REV; P3_R10G10B10A2_REV; P3_FP16].

Definition legacy_chain : list WIDECOLOR_MODE := [SRGBA_R8G8B8A8_REV].

Definition is_legacy_chain (chain : list WIDECOLOR_MODE) : bool :=
  match chain with
  | [SRGBA_R8G8B8A8_REV] => true
  | _ => false
  end.

Section BestEffortSpec.

Variable drv : Driver.

  (** [SelectFallbackChain]: the passthrough list when the passthrough
      extensions are advertised, else the standard wide-gamut list when the
      Display-P3 extensions are, else the single legacy mode. *)
Definition SelectFallbackChain (w : EglWorld) (disp : EGLDisplay)
    : option (list WIDECOLOR_MODE) :=
    match CheckRequiredEGLExt drv w disp passthruExt with
    | None => None
    | Some true => Some passthrough_chain
    | Some false =>
        match CheckRequiredEGLExt drv w disp p3Exts with
        | None => None
        | Some true => Some wide_gamut_chain
        | Some false => Some legacy_chain
        end
    end.

  (** "Every entry failed": the modes of the list were attempted one after
      the other, each attempt starting from the engine and the platform
      that the attempt before it left, and each returned false. *)
Inductive every_entry_failed
    : list WIDECOLOR_MODE -> ImageViewEngine -> EglWorld ->
      ImageViewEngine -> EglWorld -> Prop :=
| no_entry st w : every_entry_failed [] st w st w
| entry_failed mode rest st w st1 w1 st' w' :
    CreateWideColorCtx_mode drv mode st w = Returned false st1 w1 ->
    every_entry_failed rest st1 w1 st' w' ->
    every_entry_failed (mode :: rest) st w st' w'.

  (** The modes the negotiation goes through: the selected chain, and after
      a wide-gamut chain the single legacy mode as the final fallback. *)
Definition with_legacy_fallback (chain : list WIDECOLOR_MODE) : list WIDECOLOR_MODE :=
    if is_legacy_chain chain then chain else chain ++ legacy_chain.

  (** "Iterates over the list, returning on first success": [result] is what
      the attempt on some mode of the list gave, every mode before it having
      failed; or every mode of the list failed and [result] is false with
      what the last attempt left. *)
Definition first_success_outcome (modes : list WIDECOLOR_MODE)
      (st : ImageViewEngine) (w : EglWorld) (result : outcome bool) : Prop :=
    match result with
    | Returned false st' w' => every_entry_failed modes st w st' w'
    | _ =>
        exists before mode after st1 w1,
          modes = before ++ mode :: after /\
          every_entry_failed before st w st1 w1 /\
          CreateWideColorCtx_mode drv mode st1 w1 = result
    end.

  (** [CreateBestEffort]: open the display, select the chain, try its modes
      in order and return at the first success; when every entry of a
      wide-gamut chain failed, retry with the legacy mode.  The call is
      aborted when the extension string cannot be read. *)
Definition CreateBestEffort_spec (st : ImageViewEngine) (w : EglWorld)
      (result : outcome bool) : Prop :=
    let st0 := set_display_ (eglGetDisplay drv w) st in
    let w0 := snd (eglInitialize drv w (display_ st0)) in
    match SelectFallbackChain w0 (display_ st0) with
    | None => result = Aborted
    | Some chain => first_success_outcome (with_legacy_fallback chain) st0 w0 result
    end.

End BestEffortSpec.

(* ================================================================== *)
(** * States, invariant and reachability *)
(* ================================================================== *)

(** Context and surface are both null or both non-null. *)
Definition handles_paired (st : ImageViewEngine) : Prop :=
  (eglContext_ st = EGL_NO_CONTEXT /\ surface_ st = EGL_NO_SURFACE) \/
  (eglContext_ st <> EGL_NO_CONTEXT /\ surface_ st <> EGL_NO_SURFACE).

(** The engine holds a surface that exists on the platform. *)
Definition surface_live (st : ImageViewEngine) (w : EglWorld) : Prop :=
  surface_ st <> EGL_NO_SURFACE /\ In (surface_ st) (surfaces w).

Definition context_live (st : ImageViewEngine) (w : EglWorld) : Prop :=
  eglContext_ st <> EGL_NO_CONTEXT /\ In (eglContext_ st) (contexts w).

(** Colour space and pixel format are invalid unless a surface is live. *)
Definition colour_invalid_unless_surface (st : ImageViewEngine) (w : EglWorld) : Prop :=
  surface_live st w \/
  (dispColorSpace_ st = INVALID /\ dispFormat_ st = INVALID_FORMAT).

Definition context_invariant (st : ImageViewEngine) (w : EglWorld) : Prop :=
  handles_paired st /\ colour_invalid_unless_surface st w.

(** The engine holds nothing: no context, no surface, no colour mode. *)
Definition nothing_held (st : ImageViewEngine) : Prop :=
  eglContext_ st = EGL_NO_CONTEXT /\ surface_ st = EGL_NO_SURFACE /\
  dispColorSpace_ st = INVALID /\ dispFormat_ st = INVALID_FORMAT.

(** The engine holds a live context and a live surface, bound to each other
    as the current ones. *)
Definition ready (st : ImageViewEngine) (w : EglWorld) : Prop :=
  context_live st w /\ surface_live st w /\
  current w = (surface_ st, surface_ st, eglContext_ st).

(** The public operations. *)
Inductive operation :=
| OpCreateBestEffort
| OpTryCreate (mode : WIDECOLOR_MODE)
| OpDestroy.

Definition returned {A : Type} (o : outcome A) : option (ImageViewEngine * EglWorld) :=
  match o with
  | Returned _ st w => Some (st, w)
  | Aborted => None
  end.

Definition step (drv : Driver) (op : operation) (st : ImageViewEngine) (w : EglWorld)
  : option (ImageViewEngine * EglWorld) :=
  match op with
  | OpCreateBestEffort => returned (CreateWideColorCtx drv st w)
  | OpTryCreate mode => returned (CreateWideColorCtx_mode drv mode st w)
  | OpDestroy => Some (DestroyWideColorCtx drv st w)
  end.

Fixpoint run (drv : Driver) (ops : list operation) (st : ImageViewEngine) (w : EglWorld)
  : option (ImageViewEngine * EglWorld) :=
  match ops with
  | [] => Some (st, w)
  | op :: rest =>
      match step drv op st w with
      | Some (st', w') => run drv rest st' w'
      | None => None
      end
  end.

(** States reached from a fresh engine on a platform [w0] by any sequence of
    the public operations. *)
Inductive reachable (drv : Driver) (w0 : EglWorld) : ImageViewEngine -> EglWorld -> Prop :=
| reach_init : reachable drv w0 engine_uninitialized w0
| reach_step : forall op st w st' w',
    reachable drv w0 st w ->
    step drv op st w = Some (st', w') ->
    reachable drv w0 st' w'.

(** A creation is in order when the engine holds no context and no surface:
    on a fresh engine, after [DestroyWideColorCtx], after a failed attempt. *)
Definition in_order (op : operation) (st : ImageViewEngine) : Prop :=
  match op with
  | OpDestroy => True
  | _ => eglContext_ st = EGL_NO_CONTEXT /\ surface_ st = EGL_NO_SURFACE
  end.

Inductive reachable_in_order (drv : Driver) (w0 : EglWorld)
  : ImageViewEngine -> EglWorld -> Prop :=
| ordered_init : reachable_in_order drv w0 engine_uninitialized w0
| ordered_step : forall op st w st' w',
    reachable_in_order drv w0 st w ->
    in_order op st ->
    step drv op st w = Some (st', w') ->
    reachable_in_order drv w0 st' w'.

(* ================================================================== *)
(** * Sample platforms *)
(* ================================================================== *)

Definition fresh_world : EglWorld :=
  {| initialized := false; contexts := []; surfaces := [];
     current := (EGL_NO_SURFACE, EGL_NO_SURFACE, EGL_NO_CONTEXT);
     window_format := None; next_handle := 16 |}.

(** A display that advertises Display-P3, has an 8-bit and a 10-bit
    configuration, creates contexts for the 8-bit one only and window
    surfaces in sRGB only; its window is 1080 x 1920. *)
Definition srgb_only_driver : Driver :=
  {| drv_display := fun _ => 1;
     drv_initialize := fun _ _ => true;
     drv_extensions := fun _ _ =>
       Some "EGL_KHR_gl_colorspace EGL_EXT_gl_colorspace_display_p3"%string;
     drv_configs := fun _ _ attrib_list =>
       match attribute_value EGL_RED_SIZE attrib_list with
       | Some 8 => Some [101]
       | Some 10 => Some [102]
       | _ => Some []
       end;
     drv_context_ok := fun _ _ config _ => config =? 101;
     drv_config_attrib := fun _ _ _ _ => 1;
     drv_set_geometry := fun _ _ => 0;
     drv_surface_ok := fun _ _ _ attrib_list =>
       match attribute_value EGL_GL_COLORSPACE_KHR attrib_list with
       | Some v => v =? EGL_GL_COLORSPACE_SRGB_KHR
       | None => true
       end;
     drv_make_current_ok := fun _ _ _ _ _ => true;
     drv_surface_attrib := fun _ _ _ attribute =>
       if attribute =? EGL_WIDTH then Some 1080
       else if attribute =? EGL_HEIGHT then Some 1920 else None |}.

(** The same display without any matching configuration. *)
Definition no_config_driver : Driver :=
  {| drv_display := drv_display srgb_only_driver;
     drv_initialize := drv_initialize srgb_only_driver;
     drv_extensions := drv_extensions srgb_only_driver;
     drv_configs := fun _ _ _ => Some [];
     drv_context_ok := drv_context_ok srgb_only_driver;
     drv_config_attrib := drv_config_attrib srgb_only_driver;
     drv_set_geometry := drv_set_geometry srgb_only_driver;
     drv_surface_ok := drv_surface_ok srgb_only_driver;
     drv_make_current_ok := drv_make_current_ok srgb_only_driver;
     drv_surface_attrib := drv_surface_attrib srgb_only_driver |}.

(** A matrix with a negative coefficient: the first row subtracts a quarter
    of green from red. *)
Definition skew3 : mat3 :=
  fun i j =>
    match i, j with
    | O, S O => Fin (- (1 # 4))
    | _, _ => identity3 i j
    end.

(** A matrix whose coefficients push the accumulation out of [0, 255]. *)
Definition gain3 : mat3 :=
  fun i j =>
    match i with
    | O => Fin 4
    | S O => Fin (- (4 # 1))
    | _ => Inf false
    end.

(** The engine and the platform after [CreateWideColorCtx()] on
    [srgb_only_driver], from a fresh engine and [fresh_world]. *)
Definition sample_ready_engine : ImageViewEngine :=
  {| display_ := 1; surface_ := 18; eglContext_ := 17;
     renderTargetWidth_ := 1080; renderTargetHeight_ := 1920;
     dispColorSpace_ := SRGB; dispFormat_ := R8G8B8A8_REV |}.

Definition sample_ready_world : EglWorld :=
  {| initialized := true; contexts := [17]; surfaces := [18];
     current := (18, 18, 17); window_format := Some 1; next_handle := 19 |}.

(** The engine after a further [CreateWideColorCtx(P3_R10G10B10A2_REV)],
    which fails at context creation ... *)
Definition sample_unpaired_engine : ImageViewEngine :=
  {| display_ := 1; surface_ := 18; eglContext_ := EGL_NO_CONTEXT;
     renderTargetWidth_ := 1080; renderTargetHeight_ := 1920;
     dispColorSpace_ := SRGB; dispFormat_ := R8G8B8A8_REV |}.

(** ... and after a further [CreateWideColorCtx(P3_R8G8B8A8_REV)] instead,
    which fails at surface creation, with the platform it leaves. *)
Definition sample_stale_engine : ImageViewEngine :=
  {| display_ := 1; surface_ := EGL_NO_SURFACE; eglContext_ := EGL_NO_CONTEXT;
     renderTargetWidth_ := 1080; renderTargetHeight_ := 1920;
     dispColorSpace_ := SRGB; dispFormat_ := R8G8B8A8_REV |}.

Definition sample_stale_world : EglWorld :=
  {| initialized := true; contexts := [17]; surfaces := [18];
     current := (18, 18, 17); window_format := Some 1; next_handle := 20 |}.

(** ** Cross-check against the Standard Library's [SpecFloat] *)

Definition spec_float_eqb (x y : SpecFloat.spec_float) : bool :=
  match x, y with
  | SpecFloat.S754_nan, SpecFloat.S754_nan => true
  | SpecFloat.S754_infinity s, SpecFloat.S754_infinity s' => Bool.eqb s s'
  | SpecFloat.S754_zero s, SpecFloat.S754_zero s' => Bool.eqb s s'
  | SpecFloat.S754_finite s m e, SpecFloat.S754_finite s' m' e' =>
      Bool.eqb s s' && Pos.eqb m m' && Z.eqb e e'
  | _, _ => false
  end.

(** The four operations of [IEEE] on [x] and [y] give the data that the
    operations of [SpecFloat] give. *)
Definition ops_agree (fmt : format) (x y : float) : bool :=
  let p := prec fmt in
  let e := emax fmt in
  spec_float_eqb (to_spec fmt (add fmt x y))
    (SpecFloat.SFadd p e (to_spec fmt x) (to_spec fmt y))
  && spec_float_eqb (to_spec fmt (sub fmt x y))
       (SpecFloat.SFsub p e (to_spec fmt x) (to_spec fmt y))
  && spec_float_eqb (to_spec fmt (mul fmt x y))
       (SpecFloat.SFmul p e (to_spec fmt x) (to_spec fmt y))
  && spec_float_eqb (to_spec fmt (div fmt x y))
       (SpecFloat.SFdiv p e (to_spec fmt x) (to_spec fmt y)).

(** The constants of the program ... *)
Definition program_constants (fmt : format) : list float :=
  [ Zero false; Zero true; Inf false; Inf true; NaN;
    Fin 1; of_Z fmt 255; of_Z fmt 1024; of_Z fmt 200; lit fmt 5 10;
    lit fmt 1055 1000; lit fmt 55 1000; lit fmt 31308 10000000;
    lit fmt 1292 100; lit fmt 4045 100000; lit fmt 22 10;
    lit fmt (-1) 4; lit fmt (-9692436457) 10000000000; lit fmt 1 3 ].

(** ... and data at the edges of a format: the least subnormal number and
    its triple, the greatest finite number, the least normal number. *)
Definition format_edges (fmt : format) : list float :=
  [ Fin (pow2 (emin fmt)); Fin (3 * pow2 (emin fmt));
    Fin (pow2 (emax fmt) - pow2 (emax fmt - prec fmt));
    Fin (- pow2 (emax fmt - 1)); Fin (pow2 (emin fmt + prec fmt)) ].

Definition all_pairs_agree (fmt : format) (l : list float) : bool :=
  forallb (fun x => forallb (ops_agree fmt x) l) l.

(* ================================================================== *)
(** * Further parts of the program *)
(* ================================================================== *)

(** [ApplyGamma(dst, srcR, srcG, srcB, gammaTable)]: the returned flag and
    the three bytes [gammaTable[srcR]], [gammaTable[srcG]],
    [gammaTable[srcB]]; [None] when an index is outside the vector. *)
Definition ApplyGamma (srcR srcG srcB : Z) (gammaTable : list Z)
  : option (bool * (Z * Z * Z)) :=
  match nth_error gammaTable (Z.to_nat srcR),
        nth_error gammaTable (Z.to_nat srcG),
        nth_error gammaTable (Z.to_nat srcB) with
  | Some r, Some g, Some b => Some (true, (r, g, b))
  | _, _, _ => None
  end.

(** The pieces of the two loops of [CreateGammaDecodeTable]:
    [idx / 12.92 + .5f] converted to a byte, ... *)
Definition decode_linear (fp_invalid : float -> Z) (idx : Z) : Z :=
  to_uint8 fp_invalid
    (add binary64 (div binary64 (of_Z binary64 idx) (lit binary64 1292 100))
       (lit binary32 5 10)).

(** ... [(idx / maxPixelf + 0.055f) / 1.055f], the operand handed to [pow],
    ... *)
Definition decode_operand (idx : Z) : float :=
  div binary32
    (add binary32 (div binary32 (of_Z binary32 idx) maxPixelf) (lit binary32 55 1000))
    (lit binary32 1055 1000).

(** ... and [val = p * maxPixeli + 0.5f;
    static_cast<uint8_t>(CLIP_COLOR(val, maxPixelf))] for the value [p] that
    [pow] returned. *)
Definition decode_quantize (fp_invalid : float -> Z) (p : float) : Z :=
  to_uint8 fp_invalid
    (CLIP_COLOR_f (add binary64 (mul binary64 p (of_Z binary64 maxPixeli))
                     (lit binary32 5 10)) maxPixelf).

(** [pow(x, n)] for a positive integer exponent [n], correctly rounded; the
    sign of a zero or infinite base is kept for an odd [n] (C Annex F);
    [NaN] stands for every other value. *)
Definition pow_int (fmt : format) (x y : float) : float :=
  match y with
  | Fin q =>
      match Qnum q, Qden q with
      | Zpos n, xH =>
          match x with
          | Fin a => round fmt (a ^ Zpos n)
          | Zero s => Zero (s && Z.odd (Zpos n))
          | Inf s => Inf (s && Z.odd (Zpos n))
          | NaN => NaN
          end
      | _, _ => NaN
      end
  | _ => NaN
  end.

(** The matrix of zeros and ones that selects, for the output channel [i],
    the input channels [j] with [sel i j]. *)
Definition selection3 (sel : nat -> nat -> bool) : mat3 :=
  fun i j => if sel i j then Fin 1 else Zero false.

Definition selected (c : bool) (x : Z) : Z := if c then x else 0.

(** [s] contains [ext]: what [std::string::find] looks for. *)
Definition occurs (ext s : string) : Prop :=
  exists before after, s = (before ++ ext ++ after)%string.

(** Every context and surface that exists was given out earlier: its handle
    is below the next one. *)
Definition world_ok (w : EglWorld) : Prop :=
  forall h, In h (contexts w) \/ In h (surfaces w) -> 0 < h < Zpos (next_handle w).

(** A value that fits a byte. *)
Definition is_byte (v : Z) : Prop := 0 <= v <= 255.

(* ================================================================== *)
(** * Facts about the arithmetic *)
(* ================================================================== *)

Local Open Scope Q_scope.

(** On the constants of the program, and in binary32 on data at the edges
    of the format too, the operations of [IEEE] agree with those of
    [SpecFloat]. *)
Lemma IEEE_agrees_with_SpecFloat :
  all_pairs_agree binary32 (program_constants binary32 ++ format_edges binary32) = true /\
  all_pairs_agree binary64 (program_constants binary64) = true.
Proof. split; vm_compute; reflexivity. Qed.

Lemma pow2_pos e : 0 < pow2 e.
Proof. unfold pow2. apply Qpower_0_lt. reflexivity. Qed.

Lemma pow2_add a b : pow2 (a + b) == pow2 a * pow2 b.
Proof. unfold pow2. apply Qpower_plus. discriminate. Qed.

Lemma pow2_succ a : pow2 (a + 1) == 2 * pow2 a.
Proof. rewrite pow2_add. unfold pow2 at 2. simpl. ring. Qed.

Lemma pow2_le a b : (a <= b)%Z -> pow2 a <= pow2 b.
Proof. intros. unfold pow2. apply Qpower_le_compat_l; [assumption | discriminate]. Qed.

Lemma pow2_lt a b : (a < b)%Z -> pow2 a < pow2 b.
Proof. intros. unfold pow2. apply Qpower_lt_compat_l; [assumption | reflexivity]. Qed.

Lemma pow2_inject z : (0 <= z)%Z -> inject_Z (2 ^ z) == pow2 z.
Proof. intros. unfold pow2. now rewrite Zpower_Qpower. Qed.

Lemma inject_Z_lt a b : (a < b)%Z -> inject_Z a < inject_Z b.
Proof. intros. now rewrite <- Zlt_Qlt. Qed.

Lemma inject_Z_le a b : (a <= b)%Z -> inject_Z a <= inject_Z b.
Proof. intros. now rewrite <- Zle_Qle. Qed.

Lemma ilog2_spec q : 0 < q -> pow2 (ilog2 q) <= q /\ q < pow2 (ilog2 q + 1).
Proof.
  intros Hq. destruct q as [n d]. unfold ilog2. cbn [Qnum Qden].
  assert (Hn : (0 < n)%Z) by (unfold Qlt in Hq; simpl in Hq; lia).
  set (Ln := Z.log2 n). set (Ld := Z.log2 (Zpos d)).
  destruct (Z.log2_spec n Hn) as [Hn1 Hn2]. fold Ln in Hn1, Hn2.
  destruct (Z.log2_spec (Zpos d) eq_refl) as [Hd1 Hd2]. fold Ld in Hd1, Hd2.
  assert (HLn : (0 <= Ln)%Z) by apply Z.log2_nonneg.
  assert (HLd : (0 <= Ld)%Z) by apply Z.log2_nonneg.
  apply inject_Z_le in Hn1, Hd1. apply inject_Z_lt in Hn2, Hd2.
  rewrite pow2_inject in Hn1, Hd1 by lia.
  replace (Z.succ Ln) with (Ln + 1)%Z in Hn2 by lia.
  replace (Z.succ Ld) with (Ld + 1)%Z in Hd2 by lia.
  rewrite pow2_inject in Hn2, Hd2 by lia.
  assert (Hq' : n # d == inject_Z n / inject_Z (Zpos d)) by apply Qmake_Qdiv.
  assert (Hdpos : 0 < inject_Z (Zpos d)) by reflexivity.
  assert (Hmul : (n # d) * inject_Z (Zpos d) == inject_Z n).
  { rewrite Hq'. field. discriminate. }
  pose proof (pow2_pos Ld) as PLd. pose proof (pow2_pos Ln) as PLn.
  destruct (Qle_bool (pow2 (Ln - Ld)) (n # d)) eqn:E.
  - apply Qle_bool_iff in E. split; [exact E|].
    assert (K : pow2 (Ln - Ld + 1) * pow2 Ld == pow2 (Ln + 1)).
    { rewrite <- pow2_add. now replace (Ln - Ld + 1 + Ld)%Z with (Ln + 1)%Z by lia. }
    pose proof (pow2_pos (Ln - Ld + 1)) as P1.
    apply Qnot_le_lt. intros C.
    assert ((pow2 (Ln - Ld + 1)) * pow2 Ld <= (n # d) * inject_Z (Zpos d)).
    { apply Qmult_le_compat_nonneg; split; lra. }
    lra.
  - assert (E' : n # d < pow2 (Ln - Ld)).
    { apply Qnot_le_lt. intros C. apply Qle_bool_iff in C. congruence. }
    replace (Ln - Ld - 1 + 1)%Z with (Ln - Ld)%Z by lia. split; [|exact E'].
    assert (K : pow2 (Ln - Ld - 1) * pow2 (Ld + 1) == pow2 Ln).
    { rewrite <- pow2_add. now replace (Ln - Ld - 1 + (Ld + 1))%Z with Ln by lia. }
    pose proof (pow2_pos (Ln - Ld - 1)) as P1.
    apply Qnot_lt_le. intros C.
    assert ((n # d) * inject_Z (Zpos d) < pow2 (Ln - Ld - 1) * pow2 (Ld + 1)).
    { apply Qle_lt_trans with (pow2 (Ln - Ld - 1) * inject_Z (Zpos d)).
      - apply Qmult_le_compat_r; lra.
      - apply Qmult_lt_l; lra. }
    lra.
Qed.

Lemma ilog2_unique q k : pow2 k <= q -> q < pow2 (k + 1) -> ilog2 q = k.
Proof.
  intros H1 H2.
  assert (Hq : 0 < q) by (pose proof (pow2_pos k); lra).
  destruct (ilog2_spec q Hq) as [A B].
  destruct (Z_lt_le_dec (ilog2 q) k) as [C|C].
  - assert (pow2 (ilog2 q + 1) <= pow2 k) by (apply pow2_le; lia). lra.
  - destruct (Z_lt_le_dec k (ilog2 q)) as [D|D]; [|lia].
    assert (pow2 (k + 1) <= pow2 (ilog2 q)) by (apply pow2_le; lia). lra.
Qed.

Lemma ilog2_mono p q : 0 < p -> p <= q -> (ilog2 p <= ilog2 q)%Z.
Proof.
  intros Hp Hpq. assert (Hq : 0 < q) by lra.
  destruct (ilog2_spec p Hp) as [A B]. destruct (ilog2_spec q Hq) as [C D].
  destruct (Z_lt_le_dec (ilog2 q) (ilog2 p)) as [E|E]; [|lia].
  assert (pow2 (ilog2 q + 1) <= pow2 (ilog2 p)) by (apply pow2_le; lia). lra.
Qed.


Lemma Qfloor_frac q : 0 <= q - inject_Z (Qfloor q) /\ q - inject_Z (Qfloor q) < 1.
Proof.
  pose proof (Qfloor_le q). pose proof (Qlt_floor q).
  rewrite inject_Z_plus in H0. change (inject_Z 1) with 1 in H0. split; lra.
Qed.

Lemma rne_bounds q : (Qfloor q <= rne q <= Qfloor q + 1)%Z.
Proof.
  unfold rne. destruct (q - inject_Z (Qfloor q) ?= 1 # 2); [destruct (Z.even _)| |]; lia.
Qed.

Lemma rne_Z z : rne (inject_Z z) = z.
Proof.
  unfold rne. rewrite Qfloor_Z.
  replace (inject_Z z - inject_Z z ?= 1 # 2) with Lt; [reflexivity|].
  symmetry. apply (proj1 (Qlt_alt _ _)). lra.
Qed.

Lemma rne_mono p q : p <= q -> (rne p <= rne q)%Z.
Proof.
  intros Hpq. pose proof (Qfloor_resp_le _ _ Hpq) as Hf.
  pose proof (rne_bounds p) as Bp. pose proof (rne_bounds q) as Bq.
  destruct (Z.eq_dec (Qfloor p) (Qfloor q)) as [E|E]; [|lia].
  unfold rne in *. rewrite E in *.
  destruct (Qcompare_spec (p - inject_Z (Qfloor q)) (1 # 2)) as [A|A|A];
    destruct (Qcompare_spec (q - inject_Z (Qfloor q)) (1 # 2)) as [B|B|B];
    try destruct (Z.even (Qfloor q)); try lia; exfalso; lra.
Qed.

Lemma rne_le_Z q z : q <= inject_Z z -> (rne q <= z)%Z.
Proof. intros H. rewrite <- (rne_Z z). now apply rne_mono. Qed.

Lemma rne_ge_Z q z : inject_Z z <= q -> (z <= rne q)%Z.
Proof. intros H. rewrite <- (rne_Z z). now apply rne_mono. Qed.

Lemma cexp_mono fmt p q : 0 < p -> p <= q -> (cexp fmt p <= cexp fmt q)%Z.
Proof. intros. unfold cexp. pose proof (ilog2_mono p q H H0). lia. Qed.


Lemma Qdiv_le_compat_pos a b c : 0 < c -> a <= b -> a / c <= b / c.
Proof.
  intros Hc Hab. unfold Qdiv. apply Qmult_le_compat_r; [assumption|].
  apply Qlt_le_weak. now apply Qinv_lt_0_compat.
Qed.

Lemma rmagv_nonneg fmt a : 0 < a -> 0 <= rmagv fmt a.
Proof.
  intros Ha. unfold rmagv. pose proof (pow2_pos (cexp fmt a)) as P.
  assert (0 <= rne (a / pow2 (cexp fmt a)))%Z.
  { apply rne_ge_Z. change (inject_Z 0) with 0. apply Qlt_le_weak.
    apply Qlt_shift_div_l; lra. }
  apply inject_Z_le in H. change (inject_Z 0) with 0 in H.
  apply Qmult_le_0_compat; lra.
Qed.

Lemma rmagv_mono fmt a b :
  (1 <= prec fmt)%Z -> 0 < a -> a <= b -> rmagv fmt a <= rmagv fmt b.
Proof.
  intros Hprec Ha Hab. assert (Hb : 0 < b) by lra.
  pose proof (cexp_mono fmt a b Ha Hab) as Hc.
  unfold rmagv.
  set (ca := cexp fmt a) in *. set (cb := cexp fmt b) in *.
  pose proof (pow2_pos ca) as Pa. pose proof (pow2_pos cb) as Pb.
  destruct (Z.eq_dec ca cb) as [E|E].
  - rewrite <- E. apply Qmult_le_compat_r; [|lra].
    apply inject_Z_le, rne_mono. now apply Qdiv_le_compat_pos.
  - assert (Hlt : (ca < cb)%Z) by lia.
    (* the larger operand sits in a higher binade *)
    assert (Hcb : cb = (ilog2 b + 1 - prec fmt)%Z).
    { unfold cb, ca, cexp in *. lia. }
    assert (Hca : (ilog2 a + 1 - prec fmt <= ca)%Z).
    { unfold ca, cexp. lia. }
    destruct (ilog2_spec a Ha) as [_ A2]. destruct (ilog2_spec b Hb) as [B1 _].
    apply Qle_trans with (pow2 (prec fmt + ca)).
    + assert (R : (rne (a / pow2 ca) <= 2 ^ prec fmt)%Z).
      { apply rne_le_Z. rewrite pow2_inject by lia.
        apply Qle_shift_div_r; [assumption|]. rewrite <- pow2_add.
        apply Qlt_le_weak. apply Qlt_le_trans with (1 := A2).
        apply pow2_le. lia. }
      apply inject_Z_le in R. rewrite pow2_inject in R by lia.
      rewrite pow2_add. apply Qmult_le_compat_r; lra.
    + assert (R : (2 ^ (prec fmt - 1) <= rne (b / pow2 cb))%Z).
      { apply rne_ge_Z. rewrite pow2_inject by lia.
        apply Qle_shift_div_l; [assumption|]. rewrite <- pow2_add.
        apply Qle_trans with (2 := B1). apply pow2_le. lia. }
      apply inject_Z_le in R. rewrite pow2_inject in R by lia.
      apply Qle_trans with (pow2 (prec fmt - 1) * pow2 cb).
      * rewrite <- pow2_add. apply pow2_le. lia.
      * apply Qmult_le_compat_r; lra.
Qed.




Lemma leb_fle x y : leb x y = true <-> fle x y.
Proof.
  unfold leb, fle. destruct (ext_of x) as [a|], (ext_of y) as [b|];
    try (split; [discriminate | contradiction]).
  destruct a as [|p|], b as [|q|]; simpl; try tauto;
    try (split; [discriminate | contradiction]).
  rewrite negb_involutive. apply Qle_bool_iff.
Qed.

Lemma ltb_fle x y : ltb x y = false -> ext_of x <> None -> ext_of y <> None -> fle y x.
Proof.
  unfold ltb, fle. destruct (ext_of x) as [a|], (ext_of y) as [b|]; try congruence.
  intros H _ _. destruct a as [|p|], b as [|q|]; simpl in *; try tauto; try discriminate.
  apply negb_false_iff in H. now apply Qle_bool_iff.
Qed.

Lemma ext_le_trans a b c : ext_le a b -> ext_le b c -> ext_le a c.
Proof. destruct a, b, c; simpl; try tauto. apply Qle_trans. Qed.

Lemma fle_trans x y z : fle x y -> fle y z -> fle x z.
Proof.
  unfold fle. destruct (ext_of x), (ext_of y), (ext_of z); try tauto.
  apply ext_le_trans.
Qed.

Lemma Qnum_pos q : (0 < Qnum q)%Z <-> 0 < q.
Proof. destruct q. unfold Qlt. simpl. lia. Qed.

Lemma Qnum_neg q : (Qnum q < 0)%Z <-> q < 0.
Proof. destruct q. unfold Qlt. simpl. lia. Qed.

Lemma Qnum_zero q : Qnum q = 0%Z <-> q == 0.
Proof. destruct q. unfold Qeq. simpl. lia. Qed.

(** What [round_mag] returns, in terms of the rounded magnitude. *)
Lemma round_mag_cases fmt s a :
  0 < a ->
  (round_mag fmt s a = Zero s /\ rmagv fmt a == 0) \/
  (round_mag fmt s a = Inf s /\ pow2 (emax fmt) <= rmagv fmt a) \/
  (exists v, round_mag fmt s a = Fin v /\
             0 < rmagv fmt a < pow2 (emax fmt) /\
             v == (if s then - rmagv fmt a else rmagv fmt a)).
Proof.
  intros Ha. pose proof (rmagv_nonneg fmt a Ha) as Hn.
  unfold round_mag. fold (rmagv fmt a).
  destruct (Z.eqb_spec (rne (a / pow2 (cexp fmt a))) 0) as [E|E].
  - left. split; [reflexivity|]. unfold rmagv. rewrite E. ring.
  - right. assert (Hp : 0 < rmagv fmt a).
    { apply Qle_lteq in Hn. destruct Hn as [Hn|Hn]; [assumption|].
      exfalso. apply E. unfold rmagv in Hn. symmetry in Hn.
      apply Qmult_integral in Hn. destruct Hn as [Hn|Hn].
      - unfold Qeq in Hn. simpl in Hn. lia.
      - pose proof (pow2_pos (cexp fmt a)). lra. }
    destruct (Qle_bool (pow2 (emax fmt)) (rmagv fmt a)) eqn:O.
    + left. split; [reflexivity|]. now apply Qle_bool_iff.
    + right. eexists. split; [reflexivity|]. split; [|apply Qred_correct].
      split; [assumption|]. apply Qnot_le_lt. intros C.
      apply Qle_bool_iff in C. congruence.
Qed.

Lemma round_mag_pos_mono fmt a b :
  (1 <= prec fmt)%Z -> 0 < a -> a <= b ->
  fle (round_mag fmt false a) (round_mag fmt false b).
Proof.
  intros Hp Ha Hab. assert (Hb : 0 < b) by lra.
  pose proof (rmagv_mono fmt a b Hp Ha Hab) as M.
  pose proof (pow2_pos (emax fmt)) as PE.
  destruct (round_mag_cases fmt false a Ha) as [[-> A]|[[-> A]|(va & -> & [A A''] & A')]];
    destruct (round_mag_cases fmt false b Hb) as [[-> B]|[[-> B]|(vb & -> & [B B''] & B')]];
    unfold fle; simpl; trivial; try lra.
Qed.

Lemma round_mag_neg_mono fmt a b :
  (1 <= prec fmt)%Z -> 0 < a -> a <= b ->
  fle (round_mag fmt true b) (round_mag fmt true a).
Proof.
  intros Hp Ha Hab. assert (Hb : 0 < b) by lra.
  pose proof (rmagv_mono fmt a b Hp Ha Hab) as M.
  pose proof (pow2_pos (emax fmt)) as PE.
  destruct (round_mag_cases fmt true a Ha) as [[-> A]|[[-> A]|(va & -> & [A A''] & A')]];
    destruct (round_mag_cases fmt true b Hb) as [[-> B]|[[-> B]|(vb & -> & [B B''] & B')]];
    unfold fle; simpl; trivial; try lra.
Qed.

Lemma round_mag_pos_sign fmt a : 0 < a -> fle (Zero false) (round_mag fmt false a).
Proof.
  intros Ha.
  destruct (round_mag_cases fmt false a Ha) as [[-> A]|[[-> A]|(va & -> & [A A''] & A')]];
    unfold fle; simpl; trivial; lra.
Qed.

Lemma round_mag_neg_sign fmt a : 0 < a -> fle (round_mag fmt true a) (Zero false).
Proof.
  intros Ha.
  destruct (round_mag_cases fmt true a Ha) as [[-> A]|[[-> A]|(va & -> & [A A''] & A')]];
    unfold fle; simpl; trivial; lra.
Qed.

(** Rounding to nearest is monotone. *)
Lemma round_mono fmt p q :
  (1 <= prec fmt)%Z -> p <= q -> fle (round fmt p) (round fmt q).
Proof.
  intros Hp Hpq. unfold round.
  destruct (Qnum p) as [|np|np] eqn:Ep; destruct (Qnum q) as [|nq|nq] eqn:Eq.
  - unfold fle; simpl; lra.
  - apply round_mag_pos_sign. apply Qnum_pos. lia.
  - exfalso. assert (q < 0) by (apply Qnum_neg; lia).
    assert (p == 0) by (apply Qnum_zero; lia). lra.
  - exfalso. assert (0 < p) by (apply Qnum_pos; lia).
    assert (q == 0) by (apply Qnum_zero; lia). lra.
  - apply round_mag_pos_mono; trivial. apply Qnum_pos; lia.
  - exfalso. assert (0 < p) by (apply Qnum_pos; lia).
    assert (q < 0) by (apply Qnum_neg; lia). lra.
  - apply round_mag_neg_sign. assert (p < 0) by (apply Qnum_neg; lia). lra.
  - apply fle_trans with (Zero false).
    + apply round_mag_neg_sign. assert (p < 0) by (apply Qnum_neg; lia). lra.
    + apply round_mag_pos_sign. apply Qnum_pos; lia.
  - apply round_mag_neg_mono; trivial.
    + assert (q < 0) by (apply Qnum_neg; lia). lra.
    + lra.
Qed.

Lemma round_not_nan fmt q : ext_of (round fmt q) <> None.
Proof.
  unfold round, round_mag.
  destruct (Qnum q); simpl; try discriminate;
    destruct (_ =? 0)%Z; try discriminate; destruct (Qle_bool _ _); discriminate.
Qed.


Lemma fle_not_nan_l x y : fle x y -> ext_of x <> None.
Proof. unfold fle. destruct (ext_of x); [discriminate | tauto]. Qed.

Lemma fle_not_nan_r x y : fle x y -> ext_of y <> None.
Proof. unfold fle. destruct (ext_of x), (ext_of y); try tauto; discriminate. Qed.

Lemma fle_round_refl fmt q : (1 <= prec fmt)%Z -> fle (round fmt q) (round fmt q).
Proof. intros. apply round_mono; [assumption | apply Qle_refl]. Qed.


(** A unary operation that rounds the image of its operand under a monotone
    rational map is monotone. *)
Lemma lift_mono fmt (F : float -> float) (f : Q -> Q) :
  (1 <= prec fmt)%Z ->
  (forall p q, p <= q -> f p <= f q) ->
  (forall s, F (Inf s) = Inf s) ->
  (forall x q, ext_of x = Some (Val q) -> feq (F x) (round fmt (f q))) ->
  forall x y, fle x y -> fle (F x) (F y).
Proof.
  intros Hp Hf Hinf Hval x y Hxy.
  unfold fle in Hxy.
  destruct (ext_of x) as [a|] eqn:Ex; [|contradiction].
  destruct (ext_of y) as [b|] eqn:Ey; [|contradiction].
  assert (Ix : forall s : bool, ext_of x = Some (if s then MinusInf else PlusInf) -> x = Inf s).
  { intros s E. destruct x as [|s'| |]; simpl in E; try discriminate.
    - destruct s, s'; congruence.
    - destruct s; discriminate.
    - destruct s; discriminate. }
  assert (Iy : forall s : bool, ext_of y = Some (if s then MinusInf else PlusInf) -> y = Inf s).
  { intros s E. destruct y as [|s'| |]; simpl in E; try discriminate.
    - destruct s, s'; congruence.
    - destruct s; discriminate.
    - destruct s; discriminate. }
  destruct a as [|p|], b as [|q|]; simpl in Hxy; try contradiction.
  - rewrite (Ix true Ex), (Iy true Ey), Hinf. exact I.
  - rewrite (Ix true Ex), Hinf. destruct (Hval y q Ey) as [H1 _].
    apply fle_not_nan_l in H1. unfold fle. simpl.
    destruct (ext_of (F y)); [exact I | congruence].
  - rewrite (Ix true Ex), (Iy false Ey), !Hinf. exact I.
  - destruct (Hval x p Ex) as [H1 _]. destruct (Hval y q Ey) as [_ H2].
    eapply fle_trans; [exact H1|]. eapply fle_trans; [|exact H2].
    apply round_mono; auto.
  - rewrite (Iy false Ey), Hinf. destruct (Hval x p Ex) as [H1 _].
    apply fle_not_nan_l in H1. unfold fle.
    destruct (ext_of (F x)) as [[]|]; simpl; trivial; congruence.
  - rewrite (Ix false Ex), (Iy false Ey), !Hinf. exact I.
Qed.

Lemma sign_of_pos c : 0 < c -> sign_of c = false.
Proof. intros H. apply Qnum_pos in H. unfold sign_of. destruct (Qnum c); trivial; lia. Qed.

Lemma round_zero fmt q : q == 0 -> round fmt q = Zero false.
Proof. intros H. apply Qnum_zero in H. unfold round. now rewrite H. Qed.

Lemma feq_zero_round fmt s q : q == 0 -> feq (Zero s) (round fmt q).
Proof. intros H. rewrite (round_zero fmt q H). split; unfold fle; simpl; lra. Qed.

Lemma mul_const_l_mono fmt c x y :
  (1 <= prec fmt)%Z -> 0 < c -> fle x y -> fle (mul fmt (Fin c) x) (mul fmt (Fin c) y).
Proof.
  intros Hp Hc. apply (lift_mono fmt (mul fmt (Fin c)) (fun q => c * q));
    [assumption | | | ].
  - intros p q H. apply Qmult_le_l; assumption.
  - intros s. simpl. now rewrite (sign_of_pos c Hc).
  - intros [| |s|a] q E; simpl in E; try discriminate.
    + destruct neg; discriminate.
    + injection E as <-. simpl. apply feq_zero_round. ring.
    + injection E as <-. simpl. split; apply fle_round_refl; assumption.
Qed.

Lemma mul_const_r_mono fmt c x y :
  (1 <= prec fmt)%Z -> 0 < c -> fle x y -> fle (mul fmt x (Fin c)) (mul fmt y (Fin c)).
Proof.
  intros Hp Hc. apply (lift_mono fmt (fun x => mul fmt x (Fin c)) (fun q => q * c));
    [assumption | | | ].
  - intros p q H. apply Qmult_le_r; assumption.
  - intros s. simpl. rewrite (sign_of_pos c Hc). now destruct s.
  - intros [| |s|a] q E; simpl in E; try discriminate.
    + destruct neg; discriminate.
    + injection E as <-. simpl. apply feq_zero_round. ring.
    + injection E as <-. simpl. split; apply fle_round_refl; assumption.
Qed.

Lemma add_const_r_mono fmt k x y :
  (1 <= prec fmt)%Z -> feq (Fin k) (round fmt k) ->
  fle x y -> fle (add fmt x (Fin k)) (add fmt y (Fin k)).
Proof.
  intros Hp Hk. apply (lift_mono fmt (fun x => add fmt x (Fin k)) (fun q => q + k));
    [assumption | | reflexivity | ].
  - intros p q H. lra.
  - intros [| |s|a] q E; simpl in E; try discriminate.
    + destruct neg; discriminate.
    + injection E as <-. simpl. destruct Hk as [K1 K2]. split.
      * eapply fle_trans; [exact K1|]. apply round_mono; trivial. lra.
      * eapply fle_trans; [|exact K2]. apply round_mono; trivial. lra.
    + injection E as <-. simpl. split; apply fle_round_refl; assumption.
Qed.

Lemma sub_const_r_mono fmt k x y :
  (1 <= prec fmt)%Z -> feq (Fin (- k)) (round fmt (- k)) ->
  fle x y -> fle (sub fmt x (Fin k)) (sub fmt y (Fin k)).
Proof. intros. unfold sub. simpl. now apply add_const_r_mono. Qed.

Lemma feq_leb x y : leb x y = true -> leb y x = true -> feq x y.
Proof. intros. split; now apply leb_fle. Qed.


Local Open Scope Z_scope.


Lemma zrange_length lo n : List.length (zrange lo n) = n.
Proof. revert lo; induction n; simpl; intros; auto. Qed.

Lemma zrange_nth n : forall lo i d, (i < n)%nat -> nth i (zrange lo n) d = lo + Z.of_nat i.
Proof.
  induction n; intros lo i d Hi; [lia|].
  destruct i; simpl; [lia|]. rewrite IHn by lia. lia.
Qed.

Lemma for_loop_push {A} (f : Z -> A) n : forall lo t,
  for_loop n lo (fun idx t => t ++ [f idx]) t = t ++ map f (zrange lo n).
Proof.
  induction n; intros lo t; simpl.
  - now rewrite app_nil_r.
  - rewrite IHn, <- app_assoc. reflexivity.
Qed.


Lemma maxPixelf_eq : maxPixelf = Fin 255.
Proof. reflexivity. Qed.

Lemma Qle_bool_false p q : Qle_bool p q = false <-> (q < p)%Q.
Proof.
  split; intros H.
  - apply Qnot_le_lt. intros C. apply Qle_bool_iff in C. congruence.
  - destruct (Qle_bool p q) eqn:E; trivial. apply Qle_bool_iff in E. lra.
Qed.

Lemma clip8_spec fp u e :
  ext_of u = Some e -> to_uint8 fp (CLIP_COLOR_f u maxPixelf) = clipq e.
Proof.
  rewrite maxPixelf_eq. destruct u as [|[]|s|q]; simpl; intros E; inversion E; subst; clear E;
    try reflexivity.
  unfold CLIP_COLOR_f, gtb, ltb. simpl.
  destruct (Qle_bool q 255) eqn:E255; simpl.
  - destruct (Qle_bool q 0) eqn:E0; simpl; [reflexivity|].
    apply Qle_bool_iff in E255. apply Qle_bool_false in E0.
    unfold to_uint8, float_to_int. simpl. rewrite (sign_of_pos q E0).
    pose proof (Qfloor_resp_le _ _ E255) as F1. change (Qfloor 255) with 255%Z in F1.
    assert (F0 : 0 <= Qfloor q).
    { change 0%Z with (Qfloor 0). apply Qfloor_resp_le. lra. }
    replace ((0 <=? Qfloor q) && (Qfloor q <=? 255)) with true; [reflexivity|].
    symmetry. apply andb_true_iff. split; apply Z.leb_le; lia.
  - apply Qle_bool_false in E255.
    replace (Qle_bool q 0) with false; [reflexivity|].
    symmetry. apply Qle_bool_false. lra.
Qed.

Lemma clipq_range e : 0 <= clipq e <= 255.
Proof.
  destruct e as [|q|]; simpl; try lia.
  destruct (Qle_bool q 0) eqn:E0; [lia|].
  destruct (Qle_bool q 255) eqn:E255; [|lia].
  apply Qle_bool_iff in E255. apply Qle_bool_false in E0.
  pose proof (Qfloor_resp_le _ _ E255) as F1. change (Qfloor 255) with 255%Z in F1.
  assert (F0 : 0 <= Qfloor q).
  { change 0%Z with (Qfloor 0). apply Qfloor_resp_le. lra. }
  lia.
Qed.

Lemma clipq_mono a b : ext_le a b -> clipq a <= clipq b.
Proof.
  intros H. pose proof (clipq_range a). pose proof (clipq_range b).
  destruct a as [|p|], b as [|q|]; simpl in *; try lia; try contradiction.
  destruct (Qle_bool p 0) eqn:P0; [lia|]. apply Qle_bool_false in P0.
  replace (Qle_bool q 0) with false in * by (symmetry; apply Qle_bool_false; lra).
  destruct (Qle_bool q 255) eqn:Q255.
  - apply Qle_bool_iff in Q255.
    replace (Qle_bool p 255) with true in * by (symmetry; apply Qle_bool_iff; lra).
    now apply Qfloor_resp_le.
  - destruct (Qle_bool p 255); lia.
Qed.

Lemma clip8_mono fp u v :
  fle u v -> to_uint8 fp (CLIP_COLOR_f u maxPixelf) <= to_uint8 fp (CLIP_COLOR_f v maxPixelf).
Proof.
  unfold fle. destruct (ext_of u) as [a|] eqn:Eu; [|contradiction].
  destruct (ext_of v) as [b|] eqn:Ev; [|contradiction].
  intros H. rewrite (clip8_spec fp u a Eu), (clip8_spec fp v b Ev). now apply clipq_mono.
Qed.

Lemma prec32 : 1 <= prec binary32. Proof. simpl; lia. Qed.
Lemma prec64 : 1 <= prec binary64. Proof. simpl; lia. Qed.

(** The quantiser of the encoder is monotone. *)
Lemma encode_quantize_mono fp p p' :
  fle p p' -> encode_quantize fp p <= encode_quantize fp p'.
Proof.
  intros H. unfold encode_quantize. apply clip8_mono.
  change (lit binary32 5 10) with (Fin (1 # 2)).
  apply add_const_r_mono; [apply prec64 | apply feq_leb; reflexivity |].
  change (of_Z binary64 maxPixeli) with (Fin 255).
  apply mul_const_r_mono; [apply prec64 | reflexivity |].
  change (lit binary32 55 1000) with (Fin (7381975 # 134217728)).
  apply sub_const_r_mono; [apply prec32 | apply feq_leb; reflexivity |].
  change (lit binary32 1055 1000) with (Fin (8849981 # 8388608)).
  apply mul_const_l_mono; [apply prec32 | reflexivity | exact H].
Qed.

Section EncodeTable.
Variable fp : float -> Z.
Variables powf pow : float -> float -> float.

Lemma CreateGammaEncodeTable_eq gamma table :
    ltb gamma (Fin 1) = true ->
    CreateGammaEncodeTable fp powf gamma table =
    Some (map (fun idx => encode_quantize fp (powf (encode_operand idx) gamma)) (zrange 0 256)).
  Proof.
    intros Hg. unfold CreateGammaEncodeTable.
    change (lit binary32 1 1) with (Fin 1). rewrite Hg. simpl negb. cbv iota.
    change (to_uint32 fp _) with 0.
    unfold for_range. rewrite !for_loop_push. reflexivity.
  Qed.

Lemma CreateGammaEncodeTable_assert gamma table :
    ltb gamma (Fin 1) = false -> CreateGammaEncodeTable fp powf gamma table = None.
  Proof.
    intros Hg. unfold CreateGammaEncodeTable.
    change (lit binary32 1 1) with (Fin 1). now rewrite Hg.
  Qed.
End EncodeTable.


Lemma zrange_In n : forall lo idx, lo <= idx < lo + Z.of_nat n -> In idx (zrange lo n).
Proof.
  induction n; intros lo idx H; [lia|]. simpl.
  destruct (Z.eq_dec lo idx); [now left | right]. apply IHn. lia.
Qed.

Lemma zrange_forallb (P : Z -> bool) n idx :
  forallb P (zrange 0 n) = true -> 0 <= idx < Z.of_nat n -> P idx = true.
Proof.
  intros H Hi. rewrite forallb_forall in H. apply H. apply zrange_In. lia.
Qed.

Lemma nth_map_zrange {A} (f : Z -> A) n i d :
  (i < n)%nat -> nth i (map f (zrange 0 n)) d = f (Z.of_nat i).
Proof.
  intros Hi. rewrite (nth_indep _ d (f 0)) by now rewrite length_map, zrange_length.
  rewrite map_nth, zrange_nth by assumption. reflexivity.
Qed.

Lemma chain_mono (e : nat -> Z) n :
  (forall i, (S i < n)%nat -> e i <= e (S i)) ->
  forall i j, (i <= j < n)%nat -> e i <= e j.
Proof.
  intros H i j [Hij Hj]. induction Hij; [lia|].
  specialize (IHHij ltac:(lia)). specialize (H m ltac:(lia)). lia.
Qed.


(* ================================================================== *)
(** * The fixed-point colour transform *)
(* ================================================================== *)

Lemma int32_small z : - 2 ^ 31 <= z < 2 ^ 31 -> int32 z = z.
Proof. intros H. unfold int32. rewrite Z.mod_small; lia. Qed.

Lemma CLIP_COLOR_range color : 0 <= CLIP_COLOR color 255 <= 255.
Proof.
  unfold CLIP_COLOR. destruct (Z.gtb_spec color 255); [lia|].
  destruct (Z.gtb_spec color 0); lia.
Qed.

Lemma CLIP_COLOR_byte color : 0 <= color <= 255 -> CLIP_COLOR color 255 = color.
Proof.
  intros H. unfold CLIP_COLOR. destruct (Z.gtb_spec color 255); [lia|].
  destruct (Z.gtb_spec color 0); lia.
Qed.

Lemma uint8_small z : 0 <= z <= 255 -> uint8 z = z.
Proof. intros H. unfold uint8. apply Z.mod_small. lia. Qed.

Section Transform.

Variable fp_invalid : float -> Z.

Lemma fixed10_one : fixed10 fp_invalid (Fin 1) = 1024.
  Proof. reflexivity. Qed.

Lemma fixed10_zero : fixed10 fp_invalid (Zero false) = 0.
  Proof. reflexivity. Qed.

  (** One row of the identity: [(1024 * x + 0 * y + 0 * z + 512) >> 10 = x]. *)
Lemma identity_row x y z :
    0 <= x < 256 -> 0 <= y < 256 -> 0 <= z < 256 ->
    Z.shiftr (add32 (add32 (add32 (mul32 1024 x) (mul32 0 y)) (mul32 0 z)) 512) 10 = x /\
    Z.shiftr (add32 (add32 (add32 (mul32 0 y) (mul32 1024 x)) (mul32 0 z)) 512) 10 = x /\
    Z.shiftr (add32 (add32 (add32 (mul32 0 y) (mul32 0 z)) (mul32 1024 x)) 512) 10 = x.
  Proof.
    intros Hx Hy Hz. unfold add32, mul32.
    rewrite !Z.mul_0_l. change (int32 0) with 0.
    rewrite (int32_small (1024 * x)) by lia.
    rewrite !Z.add_0_r, !Z.add_0_l.
    rewrite !(int32_small (1024 * x)) by lia.
    rewrite (int32_small (1024 * x + 512)) by lia.
    rewrite Z.shiftr_div_pow2 by lia. change (2 ^ 10) with 1024.
    assert ((1024 * x + 512) / 1024 = x).
    { symmetry. apply (Z.div_unique _ _ _ 512); lia. }
    auto.
  Qed.

  (** C8.  With the 3x3 identity matrix [TransformR8G8B8] writes the three
      input bytes back unchanged: every coefficient converts exactly (1.0f
      to 1024, 0.0f to 0) and [(1024 * x + 512) >> 10 = x] for a byte [x]. *)
Theorem TransformR8G8B8_identity (srcR srcG srcB : Z) :
    0 <= srcR < 256 -> 0 <= srcG < 256 -> 0 <= srcB < 256 ->
    TransformR8G8B8 fp_invalid srcR srcG srcB identity3 = (true, (srcR, srcG, srcB)).
  Proof.
    intros HR HG HB. unfold TransformR8G8B8, TransformR8G8B8_clipped.
    change (identity3 0 0)%nat with (Fin 1). change (identity3 1 1)%nat with (Fin 1).
    change (identity3 2 2)%nat with (Fin 1).
    change (identity3 0 1)%nat with (Zero false). change (identity3 0 2)%nat with (Zero false).
    change (identity3 1 0)%nat with (Zero false). change (identity3 1 2)%nat with (Zero false).
    change (identity3 2 0)%nat with (Zero false). change (identity3 2 1)%nat with (Zero false).
    rewrite fixed10_one, fixed10_zero.
    destruct (identity_row srcR srcG srcB HR HG HB) as [-> _].
    destruct (identity_row srcG srcR srcB HG HR HB) as (_ & -> & _).
    destruct (identity_row srcB srcR srcG HB HR HG) as (_ & _ & ->).
    rewrite !CLIP_COLOR_byte, !uint8_small by lia. reflexivity.
  Qed.

  (** C9.  Whatever the matrix and the inputs, each of the three channels
      is within [0, 255] after [CLIP_COLOR] and before the conversion to
      [uint8_t], which therefore stores it unchanged. *)
Theorem TransformR8G8B8_clamped (srcR srcG srcB : Z) (transMatrix : mat3) :
    let '(r, g, b) := TransformR8G8B8_clipped fp_invalid srcR srcG srcB transMatrix in
    (0 <= r <= 255 /\ 0 <= g <= 255 /\ 0 <= b <= 255) /\
    TransformR8G8B8 fp_invalid srcR srcG srcB transMatrix = (true, (r, g, b)).
  Proof.
    unfold TransformR8G8B8.
    destruct (TransformR8G8B8_clipped fp_invalid srcR srcG srcB transMatrix)
      as [[r g] b] eqn:E.
    unfold TransformR8G8B8_clipped in E. injection E as <- <- <-.
    repeat split; try apply CLIP_COLOR_range.
    rewrite !uint8_small by apply CLIP_COLOR_range. reflexivity.
  Qed.

  (** The accumulation of [gain3] leaves [0, 255] on both sides, and on an
      infinite coefficient the conversion is whatever the target leaves: the
      clamp brings all three back. *)
Lemma TransformR8G8B8_gain3 :
    fixed10 fp_invalid (gain3 0 0)%nat * 255 * 3 + 512 > 255 * 1024 /\
    fixed10 fp_invalid (gain3 1 0)%nat * 255 * 3 + 512 < 0 /\
    fst (fst (TransformR8G8B8_clipped fp_invalid 255 255 255 gain3)) = 255 /\
    snd (fst (TransformR8G8B8_clipped fp_invalid 255 255 255 gain3)) = 0.
  Proof. repeat split. Qed.

  (** C10.  The conversion adds 0.5f and truncates toward zero, which is not
      the nearest integer for a negative coefficient: -0.25f * 1024 is
      exactly -256, the nearest integer is -256, and the conversion yields
      -255. *)
Theorem fixed10_negative_coefficient :
    mul binary32 (skew3 0 1)%nat (of_Z binary32 1024) = Fin (- (256 # 1)) /\
    nearest_integer (- (1 # 4) * 1024) = -256 /\
    fixed10 fp_invalid (skew3 0 1)%nat = -255.
  Proof. repeat split. Qed.

End Transform.

Lemma TransformR8G8B8_identity_witness :
  TransformR8G8B8 (fun _ => 0) 200 100 7 identity3 = (true, (200, 100, 7)).
Proof. apply TransformR8G8B8_identity; lia. Defined.

(* ================================================================== *)
(** * The gamma tables *)
(* ================================================================== *)

Section GammaTables.

Variable fp_invalid : float -> Z.
Variables powf pow : float -> float -> float.

Lemma CreateGammaEncodeTable_length gamma table :
    ltb gamma (Fin 1) = true ->
    exists t, CreateGammaEncodeTable fp_invalid powf gamma table = Some t /\
              List.length t = 256%nat.
  Proof.
    intros Hg. rewrite (CreateGammaEncodeTable_eq fp_invalid powf gamma table Hg).
    eexists. split; [reflexivity|]. now rewrite length_map, zrange_length.
  Qed.

Lemma CreateGammaDecodeTable_appends gamma table :
    gtb gamma (Fin 1) = true ->
    exists t, CreateGammaDecodeTable fp_invalid pow gamma table = Some (table ++ t) /\
              List.length t = 256%nat.
  Proof.
    intros Hg. unfold CreateGammaDecodeTable.
    change (lit binary64 1 1) with (Fin 1). rewrite Hg. simpl negb. cbv iota.
    change (to_uint32 fp_invalid _) with 10.
    unfold for_range. rewrite !for_loop_push, <- app_assoc.
    eexists. split; [reflexivity|].
    rewrite length_app, !length_map, !zrange_length. reflexivity.
  Qed.

Lemma CreateGammaDecodeTable_assert gamma table :
    gtb gamma (Fin 1) = false -> CreateGammaDecodeTable fp_invalid pow gamma table = None.
  Proof.
    intros Hg. unfold CreateGammaDecodeTable.
    change (lit binary64 1 1) with (Fin 1). now rewrite Hg.
  Qed.

  (** C6.  [CreateGammaEncodeTable] empties the table it is given and leaves
      256 entries; [CreateGammaDecodeTable] does not empty it and leaves the
      prior contents followed by 256 entries: 257 entries when it is given a
      table of one byte, here with gamma = 2.2f. *)
Theorem CreateGammaDecodeTable_keeps_prior_contents :
    ltb (lit binary32 5 10) (Fin 1) = true /\
    gtb (lit binary32 22 10) (Fin 1) = true /\
    option_map (@List.length Z)
      (CreateGammaEncodeTable fp_invalid powf (lit binary32 5 10) [0]) = Some 256%nat /\
    option_map (@List.length Z)
      (CreateGammaDecodeTable fp_invalid pow (lit binary32 22 10) [0]) = Some 257%nat.
  Proof.
    split; [reflexivity|]. split; [reflexivity|]. split.
    - destruct (CreateGammaEncodeTable_length (lit binary32 5 10) [0] eq_refl) as (t & -> & Ht).
      simpl. now rewrite Ht.
    - destruct (CreateGammaDecodeTable_appends (lit binary32 22 10) [0] eq_refl) as (t & -> & Ht).
      simpl. now rewrite Ht.
  Qed.

  (** C7, as amended.  For a gamma with 0 < gamma < 1, and a [pow] that
      returns +0 for a zero base and a positive exponent, 1 for the base 1
      (both as C Annex F requires) and does not decrease along the 256
      operands [idx / 255.0f], the table has 256 entries, starts at 0, ends
      at 255 and never decreases. *)
Theorem CreateGammaEncodeTable_monotone gamma table t :
    ltb (Zero false) gamma = true ->
    ltb gamma (Fin 1) = true ->
    (forall y, ltb (Zero false) y = true -> powf (Zero false) y = Zero false) ->
    (forall y, powf (Fin 1) y = Fin 1) ->
    (forall idx, 0 <= idx < 255 ->
       leb (powf (encode_operand idx) gamma) (powf (encode_operand (idx + 1)) gamma) = true) ->
    CreateGammaEncodeTable fp_invalid powf gamma table = Some t ->
    List.length t = 256%nat /\ nth 0 t 0 = 0 /\ nth 255 t 0 = 255 /\
    forall i j, (i <= j < 256)%nat -> nth i t 0 <= nth j t 0.
  Proof.
    intros G0 G1 Hzero Hone Hmono Ht.
    rewrite (CreateGammaEncodeTable_eq fp_invalid powf gamma table G1) in Ht.
    remember (zrange 0 256) as rng eqn:Erng.
    injection Ht as <-. subst rng.
    split; [now rewrite length_map, zrange_length|].
    split; [|split].
    - rewrite nth_map_zrange by lia.
      change (encode_operand (Z.of_nat 0)) with (Zero false).
      rewrite (Hzero gamma G0). reflexivity.
    - rewrite nth_map_zrange by lia.
      change (encode_operand (Z.of_nat 255)) with (Fin 1).
      rewrite Hone. reflexivity.
    - apply (chain_mono (fun i => nth i (map _ (zrange 0 256)) 0)).
      intros i Hi. rewrite !nth_map_zrange by lia.
      apply encode_quantize_mono, leb_fle.
      replace (Z.of_nat (S i)) with (Z.of_nat i + 1) by lia.
      apply Hmono. lia.
  Qed.

  (** When [pow] returns 1 or +infinity for the zero base, as C Annex F
      requires for an exponent that is zero or negative, the first entry of
      the table is 255. *)
Lemma CreateGammaEncodeTable_nonpositive_gamma gamma table t :
    powf (Zero false) gamma = Fin 1 \/ powf (Zero false) gamma = Inf false ->
    CreateGammaEncodeTable fp_invalid powf gamma table = Some t ->
    nth 0 t 0 = 255.
  Proof.
    intros Hp Ht. destruct (ltb gamma (Fin 1)) eqn:G1.
    - rewrite (CreateGammaEncodeTable_eq fp_invalid powf gamma table G1) in Ht.
      remember (zrange 0 256) as rng eqn:Erng.
      injection Ht as <-. subst rng. rewrite nth_map_zrange by lia.
      change (encode_operand (Z.of_nat 0)) with (Zero false).
      destruct Hp as [-> | ->]; reflexivity.
    - rewrite (CreateGammaEncodeTable_assert fp_invalid powf gamma table G1) in Ht.
      discriminate.
  Qed.

End GammaTables.

Lemma pow_ref_zero fmt y : ltb (Zero false) y = true -> pow_ref fmt (Zero false) y = Zero false.
Proof. intros H. destruct y; simpl in *; try discriminate; now rewrite H. Qed.

Lemma pow_ref_one fmt y : pow_ref fmt (Fin 1) y = Fin 1.
Proof. destruct y; reflexivity. Qed.

Lemma pow_ref_half_grid idx :
  0 <= idx < 255 ->
  leb (pow_ref binary32 (encode_operand idx) (Fin (1 # 2)))
      (pow_ref binary32 (encode_operand (idx + 1)) (Fin (1 # 2))) = true.
Proof.
  apply (zrange_forallb
           (fun idx => leb (pow_ref binary32 (encode_operand idx) (Fin (1 # 2)))
                           (pow_ref binary32 (encode_operand (idx + 1)) (Fin (1 # 2)))) 255).
  vm_compute. reflexivity.
Qed.

Lemma CreateGammaEncodeTable_monotone_witness :
  exists t,
    CreateGammaEncodeTable (fun _ => 0) (pow_ref binary32) (Fin (1 # 2)) [7] = Some t /\
    List.length t = 256%nat /\ nth 0 t 0 = 0 /\ nth 255 t 0 = 255 /\
    forall i j, (i <= j < 256)%nat -> nth i t 0 <= nth j t 0.
Proof.
  eexists. split; [vm_compute; reflexivity|].
  apply (CreateGammaEncodeTable_monotone (fun _ => 0) (pow_ref binary32) (Fin (1 # 2)) [7]).
  - reflexivity.
  - reflexivity.
  - apply pow_ref_zero.
  - apply pow_ref_one.
  - apply pow_ref_half_grid.
  - vm_compute; reflexivity.
Defined.

(** C7, as stated, fails at gamma = 0, which passes the assertion
    [gamma < 1.0f]: [pow(x, 0) = 1] for every [x], so the entry at index 0
    is 255 and not 0. *)
Lemma CreateGammaEncodeTable_gamma_zero :
  ltb (Zero false) (Fin 1) = true /\
  option_map (fun t => nth 0 t 0)
    (CreateGammaEncodeTable (fun _ => 0) (pow_ref binary32) (Zero false) []) = Some 255.
Proof. split; vm_compute; reflexivity. Qed.

(* ================================================================== *)
(** * The configuration request *)
(* ================================================================== *)

Lemma config_attributes_bit_depths mode :
  attribute_value EGL_RED_SIZE (config_attributes mode) = Some (r_ (glCfg mode)) /\
  attribute_value EGL_GREEN_SIZE (config_attributes mode) = Some (g_ (glCfg mode)) /\
  attribute_value EGL_BLUE_SIZE (config_attributes mode) = Some (b_ (glCfg mode)) /\
  attribute_value EGL_ALPHA_SIZE (config_attributes mode) = Some (a_ (glCfg mode)).
Proof. destruct mode; repeat split. Qed.

Lemma config_attributes_component_type mode :
  attribute_value EGL_COLOR_COMPONENT_TYPE_EXT (config_attributes mode) =
  Some (if WIDECOLOR_MODE_eqb mode P3_FP16
        then EGL_COLOR_COMPONENT_TYPE_FLOAT_EXT
        else EGL_COLOR_COMPONENT_TYPE_FIXED_EXT).
Proof. destruct mode; reflexivity. Qed.

(** Two rows of the tables are half-float rows, and the test
    [mode == P3_FP16] singles out one enumerator: whichever ordinal that
    enumerator has, some half-float row is requested as FIXED. *)
Lemma half_float_rows (ordinal_of_P3_FP16 : nat) :
  exists row,
    row <> ordinal_of_P3_FP16 /\
    option_map app_fmt_ (nth_error appWideColorCfg row) = Some RGBA_FP16 /\
    option_map r_ (nth_error glWideColorCfg row) = Some 16.
Proof.
  destruct (Nat.eq_dec ordinal_of_P3_FP16 2) as [->|H].
  - exists 5%nat. repeat split. discriminate.
  - exists 2%nat. repeat split. congruence.
Qed.

(** C1.  The channel depths of the request are those of
    [glWideColorCfg[mode]], but the component type is FLOAT for [P3_FP16]
    only: for the half-float mode [P3_PASSTHROUGH_FP16], a 16-16-16-16 row,
    the request carries FIXED. *)
Theorem config_attributes_passthrough_fp16 :
  is_half_float_mode P3_PASSTHROUGH_FP16 = true /\
  is_half_float_mode P3_FP16 = true /\
  config_attributes P3_PASSTHROUGH_FP16 =
    [ EGL_SURFACE_TYPE; EGL_WINDOW_BIT; EGL_RENDERABLE_TYPE; EGL_OPENGL_ES3_BIT;
      EGL_BLUE_SIZE; 16; EGL_GREEN_SIZE; 16; EGL_RED_SIZE; 16; EGL_ALPHA_SIZE; 16;
      EGL_COLOR_COMPONENT_TYPE_EXT; EGL_COLOR_COMPONENT_TYPE_FIXED_EXT; EGL_NONE ] /\
  config_attributes P3_FP16 =
    [ EGL_SURFACE_TYPE; EGL_WINDOW_BIT; EGL_RENDERABLE_TYPE; EGL_OPENGL_ES3_BIT;
      EGL_BLUE_SIZE; 16; EGL_GREEN_SIZE; 16; EGL_RED_SIZE; 16; EGL_ALPHA_SIZE; 16;
      EGL_COLOR_COMPONENT_TYPE_EXT; EGL_COLOR_COMPONENT_TYPE_FLOAT_EXT; EGL_NONE ] /\
  EGL_COLOR_COMPONENT_TYPE_FIXED_EXT <> EGL_COLOR_COMPONENT_TYPE_FLOAT_EXT.
Proof. repeat split. discriminate. Qed.

(* ================================================================== *)
(** * One attempt *)
(* ================================================================== *)

Lemma set_eglContext_same st : set_eglContext_ (eglContext_ st) st = st.
Proof. now destruct st. Qed.

Lemma set_surface_same st : set_surface_ (surface_ st) st = st.
Proof. now destruct st. Qed.

Lemma incl_remove_cons (h : Z) (l : list Z) : incl (remove Z.eq_dec h (h :: l)) l.
Proof.
  intros x Hx. apply in_remove in Hx. destruct Hx as [Hx Hne].
  destruct Hx; congruence.
Qed.

(** The branches of one attempt, from an engine that holds no context and
    no surface: a failure gives the engine back as it was and leaves no new
    handle; a success leaves two fresh handles bound to each other. *)
Lemma CreateWideColorCtx_mode_cases drv mode st w b st' w' :
  eglContext_ st = EGL_NO_CONTEXT -> surface_ st = EGL_NO_SURFACE ->
  CreateWideColorCtx_mode drv mode st w = Returned b st' w' ->
  if b then
    eglContext_ st' = Zpos (next_handle w) /\
    surface_ st' = Zpos (Pos.succ (next_handle w)) /\
    contexts w' = Zpos (next_handle w) :: contexts w /\
    surfaces w' = Zpos (Pos.succ (next_handle w)) :: surfaces w /\
    current w' = (surface_ st', surface_ st', eglContext_ st') /\
    display_ st' = display_ st /\
    dispColorSpace_ st' = app_space_ (appCfg mode) /\
    dispFormat_ st' = app_fmt_ (appCfg mode)
  else
    st' = st /\ incl (contexts w') (contexts w) /\ incl (surfaces w') (surfaces w).
Proof.
  intros Hc Hs. destruct st as [dpy surf ctx wd ht cs fm].
  unfold EGL_NO_CONTEXT, EGL_NO_SURFACE in *. cbn in Hc, Hs. subst surf ctx.
  unfold CreateWideColorCtx_mode.
  destruct (eglChooseConfig drv w _ (config_attributes mode) 0 1 1)
    as [[status config] cfgCount].
  destruct (negb status || negb (cfgCount =? 1)).
  { intros E; inversion E; subst; clear E. repeat split; apply incl_refl. }
  unfold eglCreateContext.
  destruct (drv_context_ok drv w _ config _).
  2:{ cbn. intros E; inversion E; subst; clear E. repeat split; apply incl_refl. }
  cbn [eglContext_ set_eglContext_ Z.eqb EGL_NO_CONTEXT display_].
  unfold ANativeWindow_setBuffersGeometry.
  destruct (drv_set_geometry drv _ _ <? 0) eqn:G; cbv beta iota; rewrite G.
  { intros E; inversion E; subst; clear E. cbn -[remove].
    split; [reflexivity|]. split; [apply incl_remove_cons | apply incl_refl]. }
  unfold eglCreateWindowSurface.
  cbn [initialized contexts surfaces current window_format next_handle].
  destruct (drv_surface_ok drv _ _ _ _).
  2:{ cbn -[remove]. intros E; inversion E; subst; clear E. cbn -[remove].
      split; [reflexivity|]. split; [apply incl_remove_cons | apply incl_refl]. }
  cbn [surface_ set_surface_ Z.eqb EGL_NO_SURFACE eglContext_ display_].
  unfold eglMakeCurrent.
  destruct (drv_make_current_ok drv _ _ _ _ _); [|discriminate].
  cbn. intros E; inversion E; subst; clear E. cbn. repeat split.
Qed.

(** C2.  From an engine whose context and surface are still null, an
    attempt that returns false (no single matching configuration, context
    creation, window geometry or surface creation refused) leaves the
    engine exactly as it was, and every context and surface that exists
    afterwards existed before; when the configuration match fails, the
    platform is untouched as well. *)
Theorem CreateWideColorCtx_mode_failure_keeps_state drv mode st w :
  eglContext_ st = EGL_NO_CONTEXT -> surface_ st = EGL_NO_SURFACE ->
  (forall st' w',
     CreateWideColorCtx_mode drv mode st w = Returned false st' w' ->
     st' = st /\ incl (contexts w') (contexts w) /\ incl (surfaces w') (surfaces w)) /\
  (drv_configs drv w (display_ st) (config_attributes mode) = None \/
   drv_configs drv w (display_ st) (config_attributes mode) = Some [] ->
   CreateWideColorCtx_mode drv mode st w = Returned false st w).
Proof.
  intros Hc Hs. split.
  - intros st' w' E. exact (CreateWideColorCtx_mode_cases drv mode st w false st' w' Hc Hs E).
  - intros H. unfold CreateWideColorCtx_mode, eglChooseConfig.
    destruct H as [-> | ->]; reflexivity.
Qed.

Lemma CreateWideColorCtx_mode_failure_keeps_state_witness :
  exists w',
    CreateWideColorCtx_mode srgb_only_driver P3_R8G8B8A8_REV
      (set_display_ 1 engine_uninitialized) fresh_world
    = Returned false (set_display_ 1 engine_uninitialized) w' /\
    incl (contexts w') (contexts fresh_world) /\
    incl (surfaces w') (surfaces fresh_world) /\
    CreateWideColorCtx_mode srgb_only_driver P3_FP16
      (set_display_ 1 engine_uninitialized) fresh_world
    = Returned false (set_display_ 1 engine_uninitialized) fresh_world.
Proof.
  eexists. split; [reflexivity|].
  pose proof (CreateWideColorCtx_mode_failure_keeps_state srgb_only_driver
                P3_R8G8B8A8_REV (set_display_ 1 engine_uninitialized) fresh_world
                eq_refl eq_refl) as [H _].
  destruct (H _ _ eq_refl) as (_ & H1 & H2).
  split; [exact H1|]. split; [exact H2|].
  apply (CreateWideColorCtx_mode_failure_keeps_state srgb_only_driver
           P3_FP16 (set_display_ 1 engine_uninitialized) fresh_world eq_refl eq_refl).
  right. reflexivity.
Defined.

(* ================================================================== *)
(** * The fallback chain *)
(* ================================================================== *)

Section Chain.

Variable drv : Driver.

Lemma try_modes_app l1 l2 st w :
    try_modes drv (l1 ++ l2) st w =
    match try_modes drv l1 st w with
    | Returned false st' w' => try_modes drv l2 st' w'
    | r => r
    end.
  Proof.
    revert st w. induction l1 as [|m l1 IH]; intros st w; [reflexivity|].
    cbn [app try_modes].
    destruct (CreateWideColorCtx_mode drv m st w) as [[|] st1 w1|]; auto.
  Qed.

Lemma try_modes_one m st w :
    try_modes drv [m] st w = CreateWideColorCtx_mode drv m st w.
  Proof.
    cbn [try_modes].
    now destruct (CreateWideColorCtx_mode drv m st w) as [[|] st1 w1|].
  Qed.

  (** The loop returns false exactly when every mode was attempted in turn
      and failed. *)
Lemma try_modes_every_entry_failed modes : forall st w st' w',
    try_modes drv modes st w = Returned false st' w' <->
    every_entry_failed drv modes st w st' w'.
  Proof.
    induction modes as [|m modes IH]; intros st w st' w'; cbn [try_modes].
    - split; intros H; inversion H; subst; [constructor | reflexivity].
    - split.
      + destruct (CreateWideColorCtx_mode drv m st w) as [[|] st1 w1|] eqn:E;
          try discriminate.
        intros H. apply IH in H. econstructor; eassumption.
      + intros H. inversion H; subst.
        match goal with E : CreateWideColorCtx_mode _ _ _ _ = _ |- _ => rewrite E end.
        now apply IH.
  Qed.

  (** When the loop stops before the end of the list, it stops at the first
      mode whose attempt did not return false, with what that attempt gave. *)
Lemma try_modes_stops modes : forall st w result,
    try_modes drv modes st w = result ->
    (forall st' w', result <> Returned false st' w') ->
    exists before m after st1 w1,
      modes = before ++ m :: after /\
      every_entry_failed drv before st w st1 w1 /\
      CreateWideColorCtx_mode drv m st1 w1 = result.
  Proof.
    induction modes as [|m modes IH]; intros st w result H N; cbn [try_modes] in H.
    - subst. now elim (N st w).
    - destruct (CreateWideColorCtx_mode drv m st w) as [[|] st1 w1|] eqn:E.
      + exists [], m, modes, st, w. subst. repeat split; [constructor | exact E].
      + destruct (IH _ _ _ H N) as (before & m' & after & st2 & w2 & -> & Hb & Hm).
        exists (m :: before), m', after, st2, w2. repeat split; trivial.
        econstructor; eassumption.
      + exists [], m, modes, st, w. subst. repeat split; [constructor | exact E].
  Qed.

  (** The loop is the iteration of the specification: its result is the one
      and only outcome of "the first success, every entry before it having
      failed". *)
Lemma try_modes_first_success_outcome modes st w result :
    try_modes drv modes st w = result <-> first_success_outcome drv modes st w result.
  Proof.
    split.
    - intros H. destruct result as [[|] st' w'|]; cbn.
      + apply (try_modes_stops _ _ _ _ H). discriminate.
      + now apply try_modes_every_entry_failed.
      + apply (try_modes_stops _ _ _ _ H). discriminate.
    - assert (S : forall before m after st1 w1,
                modes = before ++ m :: after ->
                every_entry_failed drv before st w st1 w1 ->
                CreateWideColorCtx_mode drv m st1 w1 = result ->
                (forall st' w', result <> Returned false st' w') ->
                try_modes drv modes st w = result).
      { intros before m after st1 w1 -> Hb Hm N.
        apply try_modes_every_entry_failed in Hb.
        rewrite try_modes_app, Hb. cbn [try_modes]. rewrite Hm.
        destruct result as [[|] st' w'|]; trivial. now elim (N st' w'). }
      destruct result as [[|] st' w'|]; cbn.
      + intros (before & m & after & st1 & w1 & Hs & Hb & Hm).
        apply (S _ _ _ _ _ Hs Hb Hm). discriminate.
      + apply try_modes_every_entry_failed.
      + intros (before & m & after & st1 & w1 & Hs & Hb & Hm).
        apply (S _ _ _ _ _ Hs Hb Hm). discriminate.
  Qed.

  (** When every entry failed, the last attempt is what left the result. *)
Lemma every_entry_failed_last modes m : forall st w st' w',
    every_entry_failed drv (modes ++ [m]) st w st' w' ->
    exists st1 w1,
      every_entry_failed drv modes st w st1 w1 /\
      CreateWideColorCtx_mode drv m st1 w1 = Returned false st' w'.
  Proof.
    induction modes as [|m0 modes IH]; intros st w st' w' H; cbn [app] in H;
      inversion H; subst.
    - match goal with T : every_entry_failed _ [] _ _ _ _ |- _ => inversion T; subst end.
      exists st, w. split; [constructor | assumption].
    - match goal with T : every_entry_failed _ (_ ++ _) _ _ _ _ |- _ =>
        destruct (IH _ _ _ _ T) as (st2 & w2 & Hb & Hm) end.
      exists st2, w2. split; [econstructor; eassumption | exact Hm].
  Qed.

  (** The array that the code goes through is the selected chain followed by
      its legacy fallback. *)
Lemma CreateWideColorCtx_chain st w :
    CreateWideColorCtx drv st w =
    match SelectFallbackChain drv
            (snd (eglInitialize drv w (display_ (set_display_ (eglGetDisplay drv w) st))))
            (display_ (set_display_ (eglGetDisplay drv w) st)) with
    | None => Aborted
    | Some chain =>
        try_modes drv (with_legacy_fallback chain)
          (set_display_ (eglGetDisplay drv w) st)
          (snd (eglInitialize drv w (display_ (set_display_ (eglGetDisplay drv w) st))))
    end.
  Proof.
    unfold CreateWideColorCtx, SelectFallbackChain.
    destruct (eglInitialize drv w _) as [ok w0]. cbn [snd].
    destruct (CheckRequiredEGLExt drv w0 _ passthruExt) as [[|]|]; [reflexivity| |reflexivity].
    destruct (CheckRequiredEGLExt drv w0 _ p3Exts) as [[|]|]; [reflexivity| |reflexivity].
    symmetry. apply try_modes_one.
  Qed.

  (** C3.  [CreateWideColorCtx()] is the best-effort negotiation of the
      specification, and nothing else: it goes through the modes of the
      selected chain in their order, each attempt starting from what the
      failed one before it left, and returns what the first attempt that
      does not fail gave, the modes after it being left untried; after a
      wide-gamut chain of which every entry failed, the legacy mode
      [SRGBA_R8G8B8A8_REV] is attempted.  So it returns false only out of a
      failed attempt on the legacy mode that came after every other entry
      had failed. *)
Theorem CreateWideColorCtx_best_effort st w :
    (forall result,
       CreateWideColorCtx drv st w = result <-> CreateBestEffort_spec drv st w result) /\
    (forall st' w',
       CreateWideColorCtx drv st w = Returned false st' w' ->
       exists chain st1 w1,
         SelectFallbackChain drv
           (snd (eglInitialize drv w (display_ (set_display_ (eglGetDisplay drv w) st))))
           (display_ (set_display_ (eglGetDisplay drv w) st)) = Some chain /\
         every_entry_failed drv (if is_legacy_chain chain then [] else chain)
           (set_display_ (eglGetDisplay drv w) st)
           (snd (eglInitialize drv w (display_ (set_display_ (eglGetDisplay drv w) st))))
           st1 w1 /\
         CreateWideColorCtx_mode drv SRGBA_R8G8B8A8_REV st1 w1 = Returned false st' w').
  Proof.
    split.
    - intros result. rewrite CreateWideColorCtx_chain. unfold CreateBestEffort_spec.
      cbv zeta. destruct (SelectFallbackChain drv _ _) as [chain|].
      + apply try_modes_first_success_outcome.
      + split; intros H; now subst.
    - intros st' w'. rewrite CreateWideColorCtx_chain.
      destruct (SelectFallbackChain drv _ _) as [chain|] eqn:Sel; [|discriminate].
      intros H. apply try_modes_every_entry_failed in H.
      assert (C : chain = passthrough_chain \/ chain = wide_gamut_chain \/
                  chain = legacy_chain).
      { unfold SelectFallbackChain in Sel.
        destruct (CheckRequiredEGLExt drv _ _ passthruExt) as [[|]|]; try discriminate.
        - inversion Sel; auto.
        - destruct (CheckRequiredEGLExt drv _ _ p3Exts) as [[|]|]; try discriminate;
            inversion Sel; auto. }
      exists chain.
      destruct C as [->|[->| ->]]; cbn [is_legacy_chain passthrough_chain wide_gamut_chain
                                        legacy_chain with_legacy_fallback] in H |- *.
      + destruct (every_entry_failed_last passthrough_chain _ _ _ _ _ H)
          as (st1 & w1 & Hb & Hm). exists st1, w1. auto.
      + destruct (every_entry_failed_last wide_gamut_chain _ _ _ _ _ H)
          as (st1 & w1 & Hb & Hm). exists st1, w1. auto.
      + destruct (every_entry_failed_last [] _ _ _ _ _ H) as (st1 & w1 & Hb & Hm).
        exists st1, w1. auto.
  Qed.

End Chain.

Lemma CreateWideColorCtx_best_effort_witness :
  CreateBestEffort_spec srgb_only_driver engine_uninitialized fresh_world
    (Returned true sample_ready_engine sample_ready_world) /\
  exists st' w' st1 w1,
    CreateWideColorCtx no_config_driver engine_uninitialized fresh_world
    = Returned false st' w' /\
    every_entry_failed no_config_driver wide_gamut_chain
      (set_display_ 1 engine_uninitialized)
      (snd (eglInitialize no_config_driver fresh_world 1)) st1 w1 /\
    CreateWideColorCtx_mode no_config_driver SRGBA_R8G8B8A8_REV st1 w1
    = Returned false st' w'.
Proof.
  split.
  - apply (proj1 (CreateWideColorCtx_best_effort srgb_only_driver
                    engine_uninitialized fresh_world)).
    vm_compute. reflexivity.
  - destruct (CreateWideColorCtx_best_effort no_config_driver engine_uninitialized fresh_world)
      as (_ & H).
    destruct (H _ _ eq_refl) as (chain & st1 & w1 & Sel & Hb & Hm).
    assert (E : chain = wide_gamut_chain) by (vm_compute in Sel; now inversion Sel).
    subst chain. eexists _, _, st1, w1. split; [reflexivity|]. split; [exact Hb | exact Hm].
Defined.

(* ================================================================== *)
(** * Tear-down *)
(* ================================================================== *)

Section Destroy.

Variable drv : Driver.

Lemma DestroyWideColorCtx_closed st w :
    display_ st = EGL_NO_DISPLAY -> DestroyWideColorCtx drv st w = (st, w).
  Proof. intros H. unfold DestroyWideColorCtx. now rewrite H. Qed.

Lemma DestroyWideColorCtx_open st w :
    display_ st <> EGL_NO_DISPLAY ->
    fst (DestroyWideColorCtx drv st w) =
      {| display_ := EGL_NO_DISPLAY; surface_ := EGL_NO_SURFACE;
         eglContext_ := EGL_NO_CONTEXT;
         renderTargetWidth_ := renderTargetWidth_ st;
         renderTargetHeight_ := renderTargetHeight_ st;
         dispColorSpace_ := INVALID; dispFormat_ := INVALID_FORMAT |} /\
    initialized (snd (DestroyWideColorCtx drv st w)) = false /\
    next_handle (snd (DestroyWideColorCtx drv st w)) = next_handle w /\
    (eglContext_ st <> EGL_NO_CONTEXT ->
     ~ In (eglContext_ st) (contexts (snd (DestroyWideColorCtx drv st w)))) /\
    (surface_ st <> EGL_NO_SURFACE ->
     ~ In (surface_ st) (surfaces (snd (DestroyWideColorCtx drv st w)))) /\
    (drv_make_current_ok drv w (display_ st)
       EGL_NO_SURFACE EGL_NO_SURFACE EGL_NO_CONTEXT = true ->
     current (snd (DestroyWideColorCtx drv st w))
     = (EGL_NO_SURFACE, EGL_NO_SURFACE, EGL_NO_CONTEXT)).
  Proof.
    intros H. unfold DestroyWideColorCtx.
    apply Z.eqb_neq in H. rewrite H. unfold eglMakeCurrent.
    destruct (drv_make_current_ok drv w _ _ _ _);
      destruct (eglContext_ st =? EGL_NO_CONTEXT) eqn:Hc;
      destruct (surface_ st =? EGL_NO_SURFACE) eqn:Hs;
      cbn -[remove]; repeat split; trivial;
      try (apply Z.eqb_eq in Hc; congruence);
      try (apply Z.eqb_eq in Hs; congruence);
      try discriminate; intros _; apply remove_In.
  Qed.

  (** C4, as amended.  [DestroyWideColorCtx] does nothing when the display is
      already closed; otherwise it unbinds, destroys the context and the
      surface it holds, terminates the display and resets [display_],
      [eglContext_], [surface_], [dispColorSpace_] and [dispFormat_], leaving
      [renderTargetWidth_] and [renderTargetHeight_] as they were.  A second
      call changes nothing, from any state. *)
Theorem DestroyWideColorCtx_idempotent st w :
    (display_ st = EGL_NO_DISPLAY -> DestroyWideColorCtx drv st w = (st, w)) /\
    (display_ st <> EGL_NO_DISPLAY ->
     fst (DestroyWideColorCtx drv st w) =
       {| display_ := EGL_NO_DISPLAY; surface_ := EGL_NO_SURFACE;
          eglContext_ := EGL_NO_CONTEXT;
          renderTargetWidth_ := renderTargetWidth_ st;
          renderTargetHeight_ := renderTargetHeight_ st;
          dispColorSpace_ := INVALID; dispFormat_ := INVALID_FORMAT |} /\
     initialized (snd (DestroyWideColorCtx drv st w)) = false /\
     (eglContext_ st <> EGL_NO_CONTEXT ->
      ~ In (eglContext_ st) (contexts (snd (DestroyWideColorCtx drv st w)))) /\
     (surface_ st <> EGL_NO_SURFACE ->
      ~ In (surface_ st) (surfaces (snd (DestroyWideColorCtx drv st w)))) /\
     (drv_make_current_ok drv w (display_ st)
        EGL_NO_SURFACE EGL_NO_SURFACE EGL_NO_CONTEXT = true ->
      current (snd (DestroyWideColorCtx drv st w))
      = (EGL_NO_SURFACE, EGL_NO_SURFACE, EGL_NO_CONTEXT))) /\
    DestroyWideColorCtx drv (fst (DestroyWideColorCtx drv st w))
                            (snd (DestroyWideColorCtx drv st w))
    = DestroyWideColorCtx drv st w.
  Proof.
    split; [apply DestroyWideColorCtx_closed|]. split.
    - intros H. destruct (DestroyWideColorCtx_open st w H) as (A & B & _ & C & D & E).
      auto.
    - destruct (Z.eq_dec (display_ st) EGL_NO_DISPLAY) as [H|H].
      + rewrite (DestroyWideColorCtx_closed st w H). cbn [fst snd].
        apply DestroyWideColorCtx_closed, H.
      + destruct (DestroyWideColorCtx_open st w H) as (A & _).
        rewrite DestroyWideColorCtx_closed by (rewrite A; reflexivity).
        now destruct (DestroyWideColorCtx drv st w).
  Qed.

End Destroy.

Lemma sample_ready_reached :
  CreateWideColorCtx srgb_only_driver engine_uninitialized fresh_world
  = Returned true sample_ready_engine sample_ready_world.
Proof. vm_compute. reflexivity. Qed.

Lemma DestroyWideColorCtx_idempotent_witness :
  fst (DestroyWideColorCtx srgb_only_driver sample_ready_engine sample_ready_world) =
    {| display_ := EGL_NO_DISPLAY; surface_ := EGL_NO_SURFACE;
       eglContext_ := EGL_NO_CONTEXT;
       renderTargetWidth_ := 1080; renderTargetHeight_ := 1920;
       dispColorSpace_ := INVALID; dispFormat_ := INVALID_FORMAT |} /\
  ~ In 17 (contexts (snd (DestroyWideColorCtx srgb_only_driver
                            sample_ready_engine sample_ready_world))) /\
  DestroyWideColorCtx srgb_only_driver
    (fst (DestroyWideColorCtx srgb_only_driver sample_ready_engine sample_ready_world))
    (snd (DestroyWideColorCtx srgb_only_driver sample_ready_engine sample_ready_world))
  = DestroyWideColorCtx srgb_only_driver sample_ready_engine sample_ready_world.
Proof.
  destruct (DestroyWideColorCtx_idempotent srgb_only_driver
              sample_ready_engine sample_ready_world) as (_ & H & I).
  assert (D : display_ sample_ready_engine <> EGL_NO_DISPLAY) by (vm_compute; lia).
  destruct (H D) as (A & _ & C & _).
  assert (N : eglContext_ sample_ready_engine <> EGL_NO_CONTEXT) by (vm_compute; lia).
  split; [exact A|]. split; [exact (C N) | exact I].
Defined.

(** C4, as stated, fails: after a creation that found a 1080 x 1920 surface,
    [DestroyWideColorCtx] leaves the render-target size in place, so the
    engine is not back in its uninitialized state. *)
Lemma DestroyWideColorCtx_keeps_render_target_size :
  CreateWideColorCtx srgb_only_driver engine_uninitialized fresh_world
  = Returned true sample_ready_engine sample_ready_world /\
  renderTargetWidth_
    (fst (DestroyWideColorCtx srgb_only_driver sample_ready_engine sample_ready_world))
  = 1080 /\
  renderTargetHeight_
    (fst (DestroyWideColorCtx srgb_only_driver sample_ready_engine sample_ready_world))
  = 1920 /\
  fst (DestroyWideColorCtx srgb_only_driver sample_ready_engine sample_ready_world)
  <> engine_uninitialized.
Proof.
  split; [exact sample_ready_reached|].
  split; [vm_compute; reflexivity|]. split; [vm_compute; reflexivity|].
  vm_compute. discriminate.
Qed.

(* ================================================================== *)
(** * The invariant of the engine *)
(* ================================================================== *)

Lemma run_reachable drv w0 ops : forall st w st' w',
  reachable drv w0 st w ->
  run drv ops st w = Some (st', w') ->
  reachable drv w0 st' w'.
Proof.
  induction ops as [|op ops IH]; intros st w st' w' R H; cbn [run] in H.
  - now inversion H; subst.
  - destruct (step drv op st w) as [[st1 w1]|] eqn:E; [|discriminate].
    eapply IH; [|exact H]. eapply reach_step; eauto.
Qed.

(** C5, as stated, fails.  On [srgb_only_driver], after a successful
    [CreateWideColorCtx()], the attempt [CreateWideColorCtx(P3_R10G10B10A2_REV)]
    fails at context creation and leaves a null context next to the live
    surface 18; the attempt [CreateWideColorCtx(P3_R8G8B8A8_REV)] fails at
    surface creation and leaves colour space and format set with no surface
    held. *)
Lemma context_invariant_broken_by_second_attempt :
  (reachable srgb_only_driver fresh_world sample_unpaired_engine sample_ready_world /\
   In (surface_ sample_unpaired_engine) (surfaces sample_ready_world) /\
   ~ handles_paired sample_unpaired_engine /\
   ~ context_invariant sample_unpaired_engine sample_ready_world) /\
  (reachable srgb_only_driver fresh_world sample_stale_engine sample_stale_world /\
   ~ colour_invalid_unless_surface sample_stale_engine sample_stale_world /\
   ~ context_invariant sample_stale_engine sample_stale_world).
Proof.
  split.
  - split.
    { apply (run_reachable _ _ [OpCreateBestEffort; OpTryCreate P3_R10G10B10A2_REV]
               engine_uninitialized fresh_world); [apply reach_init|].
      vm_compute. reflexivity. }
    assert (N : ~ handles_paired sample_unpaired_engine).
    { intros [[_ H]|[H _]]; [discriminate H | now apply H]. }
    split; [now left|]. split; [exact N|]. intros [H _]. exact (N H).
  - split.
    { apply (run_reachable _ _ [OpCreateBestEffort; OpTryCreate P3_R8G8B8A8_REV]
               engine_uninitialized fresh_world); [apply reach_init|].
      vm_compute. reflexivity. }
    assert (N : ~ colour_invalid_unless_surface sample_stale_engine sample_stale_world).
    { intros [[H _]|[H _]]; [now apply H | discriminate H]. }
    split; [exact N|]. intros [_ H]. exact (N H).
Qed.

Section Invariant.

Variable drv : Driver.

Lemma nothing_held_set_display d st : nothing_held st -> nothing_held (set_display_ d st).
  Proof. now destruct st. Qed.

Lemma ready_not_nothing st w :
    ready st w -> eglContext_ st = EGL_NO_CONTEXT -> False.
  Proof. intros [[H _] _] E. now apply H. Qed.

Lemma attempt_from_nothing mode st w b st' w' :
    nothing_held st ->
    CreateWideColorCtx_mode drv mode st w = Returned b st' w' ->
    if b then ready st' w' else st' = st.
  Proof.
    intros (Hc & Hs & _) E.
    pose proof (CreateWideColorCtx_mode_cases drv mode st w b st' w' Hc Hs E) as C.
    destruct b; [|apply C].
    destruct C as (C1 & C2 & C3 & C4 & C5 & _).
    unfold ready, context_live, surface_live. rewrite C3, C4, C5, C1, C2.
    repeat split; try discriminate; now left.
  Qed.

Lemma try_modes_from_nothing modes : forall st w b st' w',
    nothing_held st ->
    try_modes drv modes st w = Returned b st' w' ->
    if b then ready st' w' else st' = st.
  Proof.
    induction modes as [|m modes IH]; intros st w b st' w' N H; cbn [try_modes] in H.
    - now inversion H; subst.
    - destruct (CreateWideColorCtx_mode drv m st w) as [[|] st1 w1|] eqn:E; [| |discriminate].
      + inversion H; subst. exact (attempt_from_nothing m st w true st' w' N E).
      + pose proof (attempt_from_nothing m st w false st1 w1 N E) as ->.
        eapply IH; eauto.
  Qed.

Lemma CreateWideColorCtx_from_nothing st w b st' w' :
    nothing_held st ->
    CreateWideColorCtx drv st w = Returned b st' w' ->
    if b then ready st' w' else nothing_held st'.
  Proof.
    intros N. apply (nothing_held_set_display (eglGetDisplay drv w)) in N.
    unfold CreateWideColorCtx. destruct (eglInitialize drv w _) as [ok w0].
    destruct (CheckRequiredEGLExt drv w0 _ passthruExt) as [[|]|]; [| |discriminate].
    - intros H. pose proof (try_modes_from_nothing _ _ _ _ _ _ N H) as R.
      destruct b; [exact R | now rewrite R].
    - destruct (CheckRequiredEGLExt drv w0 _ p3Exts) as [[|]|]; [| |discriminate].
      + intros H. pose proof (try_modes_from_nothing _ _ _ _ _ _ N H) as R.
        destruct b; [exact R | now rewrite R].
      + intros H. pose proof (attempt_from_nothing _ _ _ _ _ _ N H) as R.
        destruct b; [exact R | now rewrite R].
  Qed.

Lemma DestroyWideColorCtx_settles st w :
    nothing_held st \/ ready st w ->
    nothing_held (fst (DestroyWideColorCtx drv st w)) \/
    ready (fst (DestroyWideColorCtx drv st w)) (snd (DestroyWideColorCtx drv st w)).
  Proof.
    intros H. destruct (Z.eq_dec (display_ st) EGL_NO_DISPLAY) as [D|D].
    - now rewrite (DestroyWideColorCtx_closed drv st w D).
    - left. destruct (DestroyWideColorCtx_open drv st w D) as (-> & _).
      repeat split.
  Qed.

  (** In order, the engine either holds nothing or is ready. *)
Lemma in_order_settled w0 st w :
    reachable_in_order drv w0 st w -> nothing_held st \/ ready st w.
  Proof.
    induction 1 as [|op st w st' w' R IH O S].
    - left. repeat split.
    - destruct op as [|mode|]; cbn [step in_order] in *.
      + destruct O as [Oc _].
        destruct IH as [N|Rd]; [|destruct (ready_not_nothing _ _ Rd Oc)].
        destruct (CreateWideColorCtx drv st w) as [b st1 w1|] eqn:E; [|discriminate].
        inversion S; subst.
        pose proof (CreateWideColorCtx_from_nothing _ _ _ _ _ N E) as C.
        destruct b; auto.
      + destruct O as [Oc _].
        destruct IH as [N|Rd]; [|destruct (ready_not_nothing _ _ Rd Oc)].
        destruct (CreateWideColorCtx_mode drv mode st w) as [b st1 w1|] eqn:E; [|discriminate].
        inversion S; subst.
        pose proof (attempt_from_nothing _ _ _ _ _ _ N E) as C.
        destruct b; [auto | subst; auto].
      + inversion S as [S']. rewrite (surjective_pairing (DestroyWideColorCtx drv st w)) in S'.
        inversion S'; subst. now apply DestroyWideColorCtx_settles.
  Qed.

  (** C5, as amended.  In every state reached by public operations of which
      the creations are invoked in order (on an engine that holds no context
      and no surface: fresh, destroyed, or after a failed attempt), context
      and surface are both null or both valid, and colour space and pixel
      format are invalid unless a surface is live. *)
Theorem context_invariant_in_order w0 st w :
    reachable_in_order drv w0 st w -> context_invariant st w.
  Proof.
    intros R. destruct (in_order_settled w0 st w R) as [(Hc & Hs & Hcs & Hf)|(Hc & Hs & _)].
    - split; [left; auto | right; auto].
    - split; [right; split; [apply Hc | apply Hs] | left; exact Hs].
  Qed.

End Invariant.

Lemma context_invariant_in_order_witness :
  context_invariant sample_ready_engine sample_ready_world.
Proof.
  apply (context_invariant_in_order srgb_only_driver fresh_world).
  apply (ordered_step _ _ OpCreateBestEffort engine_uninitialized fresh_world).
  - apply ordered_init.
  - split; reflexivity.
  - vm_compute. reflexivity.
Defined.

(* ================================================================== *)
(** * The extension check *)
(* ================================================================== *)

Lemma prefix_occurs s1 : forall s2,
  prefix s1 s2 = true <-> exists after, s2 = (s1 ++ after)%string.
Proof.
  induction s1 as [|a s1 IH]; intros s2.
  - split; [intros _; now exists s2 | now destruct s2].
  - destruct s2 as [|b s2]; cbn [prefix].
    + split; [discriminate | intros [after H]; discriminate H].
    + destruct (Ascii.ascii_dec a b) as [->|N].
      * rewrite IH. split; intros [after H]; exists after.
        -- cbn. now rewrite H.
        -- cbn in H. now injection H.
      * split; [discriminate|]. intros [after H]. cbn in H. injection H as H _.
        now elim N.
Qed.

Lemma index_occurs ext : forall s,
  String.index 0 ext s <> None <-> occurs ext s.
Proof.
  induction s as [|b s IH]; cbn [String.index].
  - destruct ext as [|a ext].
    + split; [intros _; now exists EmptyString, EmptyString | discriminate].
    + split; [congruence|]. intros (before & after & H).
      destruct before; discriminate H.
  - destruct (prefix ext (String b s)) eqn:P.
    + split; [intros _ | discriminate].
      apply prefix_occurs in P. destruct P as [after P].
      exists EmptyString, after. exact P.
    + split.
      * intros H. destruct (String.index 0 ext s) eqn:E; [|congruence].
        destruct (proj1 IH ltac:(discriminate)) as (before & after & ->).
        now exists (String b before), after.
      * intros (before & after & H). destruct before as [|c before].
        -- cbn in H. assert (prefix ext (String b s) = true) by
             (apply prefix_occurs; now exists after).
           congruence.
        -- cbn in H. injection H as _ H.
           assert (O : occurs ext s) by now exists before, after.
           apply IH in O. destruct (String.index 0 ext s); congruence.
Qed.

Lemma string_app_assoc (a b c : string) : ((a ++ b) ++ c = a ++ (b ++ c))%string.
Proof. induction a as [|x a IH]; cbn; [reflexivity | now rewrite IH]. Qed.

Lemma occurs_extend ext s before after :
  occurs ext s -> occurs ext (before ++ s ++ after)%string.
Proof.
  intros (b & a & ->). exists (before ++ b)%string, (a ++ after)%string.
  now rewrite !string_app_assoc.
Qed.

Lemma all_found_Forall (eglExt : string) (exts : list string) :
  all_found eglExt exts = true <->
  Forall (fun ext => String.index 0 ext eglExt <> None) exts.
Proof.
  induction exts as [|ext exts IH]; cbn [all_found].
  - split; [constructor | reflexivity].
  - destruct (String.index 0 ext eglExt) eqn:E.
    + rewrite IH. split; intros H.
      * constructor; [congruence | exact H].
      * now inversion H.
    + split; [discriminate|]. intros H. inversion H; subst. congruence.
Qed.

(** X1.  The loop of [CheckRequiredEGLExt] answers true exactly when every
    required name occurs somewhere in the extension string, as a substring;
    in particular it answers true when nothing is required. *)
Theorem all_found_iff_occurs (eglExt : string) (exts : list string) :
  all_found eglExt exts = true <-> forall ext, In ext exts -> occurs ext eglExt.
Proof.
  rewrite all_found_Forall, Forall_forall.
  split; intros H ext Hx; apply index_occurs; now apply H.
Qed.

(** X2.  Text around the advertised names never turns a passing check into
    a failing one: the required names are looked up as substrings, not as
    whole names, so a longer name that contains a required one satisfies
    the check. *)
Theorem all_found_extend (eglExt before after : string) (exts : list string) :
  all_found eglExt exts = true ->
  all_found (before ++ eglExt ++ after) exts = true.
Proof.
  rewrite !all_found_Forall, !Forall_forall. intros H ext Hx.
  apply index_occurs, occurs_extend, index_occurs. now apply H.
Qed.

Lemma all_found_extend_witness :
  all_found "EGL_KHR_gl_colorspace EGL_EXT_gl_colorspace_display_p3" p3Exts = true /\
  all_found "EGL_KHR_gl_colorspace EGL_EXT_gl_colorspace_display_p3_passthrough"
    p3Exts = true.
Proof.
  split; [reflexivity|].
  apply (all_found_extend "EGL_KHR_gl_colorspace EGL_EXT_gl_colorspace_display_p3"
           "" "_passthrough" p3Exts).
  reflexivity.
Defined.

(* ================================================================== *)
(** * More on the attempts and what they leave on the platform *)
(* ================================================================== *)

Lemma world_ok_fresh w :
  world_ok w ->
  ~ In (Zpos (next_handle w)) (contexts w) /\ ~ In (Zpos (next_handle w)) (surfaces w).
Proof.
  intros H. split; intros I.
  - specialize (H _ (or_introl I)). lia.
  - specialize (H _ (or_intror I)). lia.
Qed.

Lemma remove_fresh (h : Z) (l : list Z) : ~ In h l -> remove Z.eq_dec h (h :: l) = l.
Proof.
  intros H. cbn [remove]. destruct (Z.eq_dec h h); [|congruence]. now apply notin_remove.
Qed.

(** What one attempt does to the platform and to the handles of the engine,
    whatever the engine held before. *)
Lemma CreateWideColorCtx_mode_platform drv mode st w b st' w' :
  world_ok w ->
  CreateWideColorCtx_mode drv mode st w = Returned b st' w' ->
  world_ok w' /\ display_ st' = display_ st /\
  if b then
    eglContext_ st' = Zpos (next_handle w) /\
    surface_ st' = Zpos (Pos.succ (next_handle w)) /\
    contexts w' = eglContext_ st' :: contexts w /\
    surfaces w' = surface_ st' :: surfaces w /\
    current w' = (surface_ st', surface_ st', eglContext_ st') /\
    dispColorSpace_ st' = app_space_ (appCfg mode) /\
    dispFormat_ st' = app_fmt_ (appCfg mode)
  else
    contexts w' = contexts w /\ surfaces w' = surfaces w.
Proof.
  intros OK. destruct (world_ok_fresh w OK) as [Fc Fs].
  assert (OK1 : forall w1, contexts w1 = contexts w -> surfaces w1 = surfaces w ->
                           (next_handle w <= next_handle w1)%positive -> world_ok w1).
  { intros w1 E1 E2 L h Hh. rewrite E1, E2 in Hh. specialize (OK h Hh). lia. }
  destruct st as [dpy surf ctx wd ht cs fm].
  unfold CreateWideColorCtx_mode.
  destruct (eglChooseConfig drv w _ (config_attributes mode) 0 1 1)
    as [[status config] cfgCount].
  destruct (negb status || negb (cfgCount =? 1)).
  { intros E; inversion E; subst; clear E. split; [exact OK | repeat split]. }
  unfold eglCreateContext.
  destruct (drv_context_ok drv w _ config _).
  2:{ cbn. intros E; inversion E; subst; clear E. split; [exact OK | repeat split]. }
  cbn [eglContext_ set_eglContext_ Z.eqb EGL_NO_CONTEXT display_].
  unfold ANativeWindow_setBuffersGeometry.
  destruct (drv_set_geometry drv _ _ <? 0) eqn:G; cbv beta iota; rewrite G.
  { intros E; inversion E; subst; clear E. cbn -[remove].
    rewrite (remove_fresh _ _ Fc). split; [|repeat split].
    apply OK1; cbn -[remove]; auto using remove_fresh; lia. }
  unfold eglCreateWindowSurface.
  cbn [initialized contexts surfaces current window_format next_handle].
  destruct (drv_surface_ok drv _ _ _ _).
  2:{ cbn -[remove]. intros E; inversion E; subst; clear E. cbn -[remove].
      rewrite (remove_fresh _ _ Fc). split; [|repeat split].
      apply OK1; cbn -[remove]; auto using remove_fresh; lia. }
  cbn [surface_ set_surface_ Z.eqb EGL_NO_SURFACE eglContext_ display_].
  unfold eglMakeCurrent.
  destruct (drv_make_current_ok drv _ _ _ _ _); [|discriminate].
  cbn. intros E; inversion E; subst; clear E. cbn. split; [|repeat split].
  intros h Hh. cbn in Hh |- *. destruct Hh as [[<-|Hh]|[<-|Hh]]; try lia.
  - specialize (OK h (or_introl Hh)). lia.
  - specialize (OK h (or_intror Hh)). lia.
Qed.

(** A successful attempt, whatever the engine and the platform were. *)
Lemma CreateWideColorCtx_mode_true drv mode st w st' w' :
  CreateWideColorCtx_mode drv mode st w = Returned true st' w' ->
  eglContext_ st' = Zpos (next_handle w) /\
  surface_ st' = Zpos (Pos.succ (next_handle w)) /\
  contexts w' = eglContext_ st' :: contexts w /\
  surfaces w' = surface_ st' :: surfaces w /\
  current w' = (surface_ st', surface_ st', eglContext_ st') /\
  display_ st' = display_ st /\
  dispColorSpace_ st' = app_space_ (appCfg mode) /\
  dispFormat_ st' = app_fmt_ (appCfg mode).
Proof.
  destruct st as [dpy surf ctx wd ht cs fm].
  unfold CreateWideColorCtx_mode.
  destruct (eglChooseConfig drv w _ (config_attributes mode) 0 1 1)
    as [[status config] cfgCount].
  destruct (negb status || negb (cfgCount =? 1)); [discriminate|].
  unfold eglCreateContext.
  destruct (drv_context_ok drv w _ config _); [|cbn; discriminate].
  cbn [eglContext_ set_eglContext_ Z.eqb EGL_NO_CONTEXT display_].
  unfold ANativeWindow_setBuffersGeometry.
  destruct (drv_set_geometry drv _ _ <? 0) eqn:G; cbv beta iota; rewrite G;
    [discriminate|].
  unfold eglCreateWindowSurface.
  cbn [initialized contexts surfaces current window_format next_handle].
  destruct (drv_surface_ok drv _ _ _ _); [|cbn; discriminate].
  cbn [surface_ set_surface_ Z.eqb EGL_NO_SURFACE eglContext_ display_].
  unfold eglMakeCurrent.
  destruct (drv_make_current_ok drv _ _ _ _ _); [|discriminate].
  cbn. intros E; inversion E; subst; clear E. cbn. repeat split.
Qed.


(** X3.  Whatever the engine held before, an attempt that returns true
    leaves it ready: a live context and a live surface, distinct, bound to
    each other as the current ones, with the colour space and the pixel
    format of [appWideColorCfg[mode]], neither of which is the invalid one;
    the display handle is untouched. *)
Theorem CreateWideColorCtx_mode_success_ready drv mode st w st' w' :
  CreateWideColorCtx_mode drv mode st w = Returned true st' w' ->
  ready st' w' /\ eglContext_ st' <> surface_ st' /\
  display_ st' = display_ st /\
  dispColorSpace_ st' = app_space_ (appCfg mode) /\
  dispFormat_ st' = app_fmt_ (appCfg mode) /\
  dispColorSpace_ st' <> INVALID /\ dispFormat_ st' <> INVALID_FORMAT.
Proof.
  intros E.
  destruct (CreateWideColorCtx_mode_true _ _ _ _ _ _ E)
    as (C1 & C2 & C3 & C4 & C5 & D & C6 & C7).
  repeat split; auto.
  - rewrite C1. discriminate.
  - rewrite C3. now left.
  - rewrite C2. discriminate.
  - rewrite C4. now left.
  - rewrite C1, C2. intros H. injection H as H. lia.
  - rewrite C6. now destruct mode.
  - rewrite C7. now destruct mode.
Qed.

Lemma CreateWideColorCtx_mode_success_ready_witness :
  ready sample_ready_engine sample_ready_world /\
  dispColorSpace_ sample_ready_engine = SRGB.
Proof.
  pose (w := {| initialized := true; contexts := []; surfaces := [];
                current := (EGL_NO_SURFACE, EGL_NO_SURFACE, EGL_NO_CONTEXT);
                window_format := Some 1; next_handle := 17 |}).
  assert (E : CreateWideColorCtx_mode srgb_only_driver SRGBA_R8G8B8A8_REV
                (set_display_ 1 engine_uninitialized) w
              = Returned true sample_ready_engine sample_ready_world)
    by (vm_compute; reflexivity).
  destruct (CreateWideColorCtx_mode_success_ready _ _ _ _ _ _ E) as (R & _ & _ & C & _).
  split; [exact R | exact C].
Defined.

(** X4.  An attempt never destroys a context or a surface that existed
    before it; when it returns false, exactly the contexts and surfaces that
    existed before exist afterwards. *)
Theorem CreateWideColorCtx_mode_keeps_existing drv mode st w b st' w' :
  world_ok w ->
  CreateWideColorCtx_mode drv mode st w = Returned b st' w' ->
  world_ok w' /\
  incl (contexts w) (contexts w') /\ incl (surfaces w) (surfaces w') /\
  (b = false -> contexts w' = contexts w /\ surfaces w' = surfaces w).
Proof.
  intros OK E.
  destruct (CreateWideColorCtx_mode_platform _ _ _ _ _ _ _ OK E) as (OK' & _ & C).
  split; [exact OK'|]. destruct b.
  - destruct C as (_ & _ & C3 & C4 & _). rewrite C3, C4.
    split; [intros x Hx; now right|]. split; [intros x Hx; now right|]. discriminate.
  - destruct C as [-> ->]. split; [apply incl_refl|]. split; [apply incl_refl|]. auto.
Qed.

Lemma CreateWideColorCtx_mode_keeps_existing_witness :
  exists st' w',
    CreateWideColorCtx_mode srgb_only_driver P3_R8G8B8A8_REV
      sample_ready_engine sample_ready_world = Returned false st' w' /\
    contexts w' = [17] /\ surfaces w' = [18].
Proof.
  assert (OK : world_ok sample_ready_world).
  { intros h [[<-|[]]|[<-|[]]]; cbn; lia. }
  eexists _, _. split; [vm_compute; reflexivity|].
  refine (proj2 (proj2 (proj2
            (CreateWideColorCtx_mode_keeps_existing srgb_only_driver P3_R8G8B8A8_REV
               sample_ready_engine sample_ready_world false _ _ OK _))) eq_refl).
  vm_compute. reflexivity.
Defined.

Section Leaks.

Variable drv : Driver.

Lemma try_modes_platform modes : forall st w b st' w',
  world_ok w ->
  eglContext_ st = EGL_NO_CONTEXT -> surface_ st = EGL_NO_SURFACE ->
  try_modes drv modes st w = Returned b st' w' ->
  world_ok w' /\ display_ st' = display_ st /\
  if b then
    contexts w' = eglContext_ st' :: contexts w /\
    surfaces w' = surface_ st' :: surfaces w /\
    ~ In (eglContext_ st') (contexts w) /\ ~ In (surface_ st') (surfaces w) /\
    eglContext_ st' <> EGL_NO_CONTEXT /\ surface_ st' <> EGL_NO_SURFACE
  else
    st' = st /\ contexts w' = contexts w /\ surfaces w' = surfaces w.
Proof.
  induction modes as [|m modes IH]; intros st w b st' w' OK Hc Hs H; cbn [try_modes] in H.
  - inversion H; subst. auto.
  - destruct (CreateWideColorCtx_mode drv m st w) as [[|] st1 w1|] eqn:E; [| |discriminate].
    + inversion H; subst.
      destruct (CreateWideColorCtx_mode_platform _ _ _ _ _ _ _ OK E)
        as (OK' & D & C1 & C2 & C3 & C4 & _).
      split; [exact OK'|]. split; [exact D|].
      split; [exact C3|]. split; [exact C4|].
      rewrite C1, C2. repeat split; try discriminate.
      * intros I. specialize (OK _ (or_introl I)). lia.
      * intros I. specialize (OK _ (or_intror I)). lia.
    + destruct (CreateWideColorCtx_mode_platform _ _ _ _ _ _ _ OK E) as (OK' & _ & C1 & C2).
      pose proof (CreateWideColorCtx_mode_cases _ _ _ _ _ _ _ Hc Hs E) as [-> _].
      destruct (IH _ _ _ _ _ OK' Hc Hs H) as (OK'' & D & C).
      split; [exact OK''|]. split; [exact D|].
      destruct b; rewrite <- C1, <- C2; exact C.
Qed.

(** X5.  On an engine that holds no context and no surface, the negotiation
    leaves nothing behind on the platform: when [CreateWideColorCtx()]
    returns false, exactly the contexts and surfaces that existed before
    exist afterwards (every context created by an attempt that failed later
    was destroyed again) and only the display handle of the engine has
    changed; when it returns true, exactly one context and one surface were
    added, both new and non-null, and they are the ones the engine holds. *)
Theorem CreateWideColorCtx_no_leak st w b st' w' :
  world_ok w ->
  eglContext_ st = EGL_NO_CONTEXT -> surface_ st = EGL_NO_SURFACE ->
  CreateWideColorCtx drv st w = Returned b st' w' ->
  world_ok w' /\ display_ st' = eglGetDisplay drv w /\
  if b then
    contexts w' = eglContext_ st' :: contexts w /\
    surfaces w' = surface_ st' :: surfaces w /\
    ~ In (eglContext_ st') (contexts w) /\ ~ In (surface_ st') (surfaces w) /\
    eglContext_ st' <> EGL_NO_CONTEXT /\ surface_ st' <> EGL_NO_SURFACE
  else
    st' = set_display_ (eglGetDisplay drv w) st /\
    contexts w' = contexts w /\ surfaces w' = surfaces w.
Proof.
  intros OK Hc Hs. unfold CreateWideColorCtx.
  assert (OK0 : world_ok (snd (eglInitialize drv w
                                 (display_ (set_display_ (eglGetDisplay drv w) st)))) /\
                contexts (snd (eglInitialize drv w
                                 (display_ (set_display_ (eglGetDisplay drv w) st))))
                = contexts w /\
                surfaces (snd (eglInitialize drv w
                                 (display_ (set_display_ (eglGetDisplay drv w) st))))
                = surfaces w).
  { unfold eglInitialize. destruct (drv_initialize drv w _); cbn; auto. }
  destruct (eglInitialize drv w _) as [ok w0]. cbn [snd] in OK0.
  destruct OK0 as (OK0 & E1 & E2). rewrite <- E1, <- E2.
  assert (Hc0 : eglContext_ (set_display_ (eglGetDisplay drv w) st) = EGL_NO_CONTEXT)
    by (now destruct st).
  assert (Hs0 : surface_ (set_display_ (eglGetDisplay drv w) st) = EGL_NO_SURFACE)
    by (now destruct st).
  assert (D0 : display_ (set_display_ (eglGetDisplay drv w) st) = eglGetDisplay drv w)
    by (now destruct st).
  destruct (CheckRequiredEGLExt drv w0 _ passthruExt) as [[|]|]; [| |discriminate].
  - intros H. rewrite <- D0. exact (try_modes_platform _ _ _ _ _ _ OK0 Hc0 Hs0 H).
  - destruct (CheckRequiredEGLExt drv w0 _ p3Exts) as [[|]|]; [| |discriminate].
    + intros H. rewrite <- D0. exact (try_modes_platform _ _ _ _ _ _ OK0 Hc0 Hs0 H).
    + intros H. rewrite <- try_modes_one in H. rewrite <- D0.
      exact (try_modes_platform _ _ _ _ _ _ OK0 Hc0 Hs0 H).
Qed.



End Leaks.


Lemma fresh_world_ok : world_ok fresh_world.
Proof. intros h [[]|[]]. Qed.

Lemma CreateWideColorCtx_no_leak_witness :
  contexts sample_ready_world = [eglContext_ sample_ready_engine] /\
  surfaces sample_ready_world = [surface_ sample_ready_engine] /\
  next_handle sample_ready_world = 19%positive.
Proof.
  destruct (CreateWideColorCtx_no_leak srgb_only_driver engine_uninitialized fresh_world
              true sample_ready_engine sample_ready_world fresh_world_ok eq_refl eq_refl
              sample_ready_reached)
    as (_ & _ & A & B & _).
  split; [exact A|]. split; [exact B | reflexivity].
Defined.


(* ================================================================== *)
(** * More on the gamma tables *)
(* ================================================================== *)

Lemma to_uint8_byte fp x : is_byte (to_uint8 fp x).
Proof.
  unfold is_byte, to_uint8, float_to_int, uint8.
  assert (W : forall z, 0 <= z mod 2 ^ 8 <= 255).
  { intros z. pose proof (Z.mod_pos_bound z (2 ^ 8) eq_refl). lia. }
  destruct (trunc x) as [z|]; [|apply W].
  destruct ((0 <=? z) && (z <=? 255)) eqn:E; [|apply W].
  apply andb_true_iff in E. destruct E as [E1 E2].
  apply Z.leb_le in E1, E2. lia.
Qed.

Lemma CreateGammaDecodeTable_eq fp pow gamma table :
  gtb gamma (Fin 1) = true ->
  CreateGammaDecodeTable fp pow gamma table =
  Some (table ++ map (decode_linear fp) (zrange 0 10)
              ++ map (fun idx => decode_quantize fp (pow (decode_operand idx) gamma))
                   (zrange 10 246)).
Proof.
  intros Hg. unfold CreateGammaDecodeTable.
  change (lit binary64 1 1) with (Fin 1). rewrite Hg. simpl negb. cbv iota.
  change (to_uint32 fp _) with 10.
  unfold for_range. rewrite !for_loop_push, <- app_assoc. reflexivity.
Qed.

Lemma decode_quantize_mono fp p p' :
  fle p p' -> decode_quantize fp p <= decode_quantize fp p'.
Proof.
  intros H. unfold decode_quantize. apply clip8_mono.
  change (lit binary32 5 10) with (Fin (1 # 2)).
  apply add_const_r_mono; [apply prec64 | apply feq_leb; reflexivity |].
  change (of_Z binary64 maxPixeli) with (Fin 255).
  apply mul_const_r_mono; [apply prec64 | reflexivity | exact H].
Qed.

Lemma decode_linear_values fp :
  map (decode_linear fp) (zrange 0 10) = [0; 0; 0; 0; 0; 0; 0; 1; 1; 1].
Proof. reflexivity. Qed.

Lemma nth_decode_segment {A} (f : Z -> A) (l : list A) i d :
  List.length l = 10%nat -> (10 <= i < 256)%nat ->
  nth i (l ++ map f (zrange 10 246)) d = f (Z.of_nat i).
Proof.
  intros L Hi. rewrite app_nth2 by lia. rewrite L.
  rewrite (nth_indep _ d (f 0)) by (rewrite length_map, zrange_length; lia).
  rewrite map_nth, zrange_nth by lia. f_equal. lia.
Qed.

Section MoreGammaTables.

Variable fp_invalid : float -> Z.
Variables powf pow : float -> float -> float.

(** X8.  [CreateGammaEncodeTable] does not look at the table it is given,
    and its first loop never runs ([0.0031308f * 255] truncates to 0): when
    the assertion [gamma < 1.0f] holds, every one of the 256 entries, the
    one at index 0 included, is the quantised [pow(idx / 255.0f, gamma)];
    when it does not hold (gamma >= 1 or NaN) no table is produced. *)
Theorem CreateGammaEncodeTable_entries gamma table :
  CreateGammaEncodeTable fp_invalid powf gamma table
  = CreateGammaEncodeTable fp_invalid powf gamma [] /\
  (ltb gamma (Fin 1) = true ->
   exists t,
     CreateGammaEncodeTable fp_invalid powf gamma table = Some t /\
     List.length t = 256%nat /\
     forall idx, 0 <= idx < 256 ->
       nth (Z.to_nat idx) t 0 = encode_quantize fp_invalid (powf (encode_operand idx) gamma)) /\
  (ltb gamma (Fin 1) = false ->
   CreateGammaEncodeTable fp_invalid powf gamma table = None).
Proof.
  split; [reflexivity|]. split.
  - intros Hg. rewrite (CreateGammaEncodeTable_eq fp_invalid powf gamma table Hg).
    eexists. split; [reflexivity|]. split; [now rewrite length_map, zrange_length|].
    intros idx Hi. rewrite nth_map_zrange by lia. now rewrite Z2Nat.id by lia.
  - apply CreateGammaEncodeTable_assert.
Qed.

(** X10.  For every gamma > 1 at which [pow(1, gamma) = 1], the
    decode table built in an empty vector has 256 entries; its first ten,
    the linear segment, are 0 0 0 0 0 0 0 1 1 1 whatever gamma and [pow]
    are; its last entry is 255. *)
Theorem CreateGammaDecodeTable_linear_segment gamma t :
  gtb gamma (Fin 1) = true ->
  pow (Fin 1) gamma = Fin 1 ->
  CreateGammaDecodeTable fp_invalid pow gamma [] = Some t ->
  List.length t = 256%nat /\
  firstn 10 t = [0; 0; 0; 0; 0; 0; 0; 1; 1; 1] /\
  nth 0 t 0 = 0 /\ nth 255 t 0 = 255.
Proof.
  intros Hg Hone Ht.
  rewrite (CreateGammaDecodeTable_eq fp_invalid pow gamma [] Hg) in Ht.
  rewrite decode_linear_values in Ht. remember (zrange 10 246) as rng.
  injection Ht as <-. subst rng. cbn [app].
  split; [cbn [List.length]; now rewrite length_map, zrange_length|].
  split; [reflexivity|]. split; [reflexivity|].
  change (0 :: 0 :: 0 :: 0 :: 0 :: 0 :: 0 :: 1 :: 1 :: 1 :: ?l)
    with ([0; 0; 0; 0; 0; 0; 0; 1; 1; 1] ++ l).
  rewrite nth_decode_segment by (cbn; lia).
  change (decode_operand (Z.of_nat 255)) with (Fin 1). rewrite Hone. reflexivity.
Qed.

(** X11.  The decode table is not monotone in general: when [pow] returns
    at most 1/512 at the first operand of the power segment, as an exactly
    rounded power does for gamma = 3, the entry at index 10 is 0 although
    the entry at index 9 is 1. *)
Theorem CreateGammaDecodeTable_dip gamma t :
  gtb gamma (Fin 1) = true ->
  leb (pow (decode_operand 10) gamma) (Fin (1 # 512)) = true ->
  CreateGammaDecodeTable fp_invalid pow gamma [] = Some t ->
  nth 9 t 0 = 1 /\ nth 10 t 0 = 0.
Proof.
  intros Hg Hp Ht.
  rewrite (CreateGammaDecodeTable_eq fp_invalid pow gamma [] Hg) in Ht.
  rewrite decode_linear_values in Ht. remember (zrange 10 246) as rng.
  injection Ht as <-. subst rng. cbn [app]. split; [reflexivity|].
  change (0 :: 0 :: 0 :: 0 :: 0 :: 0 :: 0 :: 1 :: 1 :: 1 :: ?l)
    with ([0; 0; 0; 0; 0; 0; 0; 1; 1; 1] ++ l).
  rewrite nth_decode_segment by (cbn; lia).
  change (Z.of_nat 10) with 10.
  apply leb_fle in Hp. apply (decode_quantize_mono fp_invalid) in Hp.
  change (decode_quantize fp_invalid (Fin (1 # 512))) with 0 in Hp.
  pose proof (to_uint8_byte fp_invalid
                (CLIP_COLOR_f (add binary64 (mul binary64 (pow (decode_operand 10) gamma)
                                               (of_Z binary64 maxPixeli))
                                 (lit binary32 5 10)) maxPixelf)) as B.
  unfold is_byte in B. fold (decode_quantize fp_invalid (pow (decode_operand 10) gamma)) in B.
  lia.
Qed.

(** X12.  When [pow] does not decrease along the operands of the power
    segment, the entries 10 to 255 of the decode table never decrease; the
    whole table then never decreases exactly when its entry at index 10 is
    at least 1. *)
Theorem CreateGammaDecodeTable_monotone_segment gamma t :
  gtb gamma (Fin 1) = true ->
  (forall idx, 10 <= idx < 255 ->
     leb (pow (decode_operand idx) gamma) (pow (decode_operand (idx + 1)) gamma) = true) ->
  CreateGammaDecodeTable fp_invalid pow gamma [] = Some t ->
  (forall i j, (10 <= i <= j /\ j < 256)%nat -> nth i t 0 <= nth j t 0) /\
  ((forall i j, (i <= j < 256)%nat -> nth i t 0 <= nth j t 0) <-> 1 <= nth 10 t 0).
Proof.
  intros Hg Hmono Ht.
  rewrite (CreateGammaDecodeTable_eq fp_invalid pow gamma [] Hg) in Ht.
  rewrite decode_linear_values in Ht. remember (zrange 10 246) as rng.
  injection Ht as <-. subst rng. cbn [app].
  change (0 :: 0 :: 0 :: 0 :: 0 :: 0 :: 0 :: 1 :: 1 :: 1 :: ?l)
    with ([0; 0; 0; 0; 0; 0; 0; 1; 1; 1] ++ l).
  set (f := fun idx => decode_quantize fp_invalid (pow (decode_operand idx) gamma)).
  assert (Seg : forall i j, (10 <= i <= j /\ j < 256)%nat -> f (Z.of_nat i) <= f (Z.of_nat j)).
  { intros i j ((Hi & Hij) & Hj). induction Hij as [|m Hij IH]; [lia|].
    specialize (IH ltac:(lia)). etransitivity; [exact IH|].
    unfold f. apply decode_quantize_mono, leb_fle.
    replace (Z.of_nat (S m)) with (Z.of_nat m + 1) by lia. apply Hmono. lia. }
  assert (S1 : forall i j, (10 <= i <= j /\ j < 256)%nat ->
               nth i ([0; 0; 0; 0; 0; 0; 0; 1; 1; 1] ++ map f (zrange 10 246)) 0 <=
               nth j ([0; 0; 0; 0; 0; 0; 0; 1; 1; 1] ++ map f (zrange 10 246)) 0).
  { intros i j H. rewrite !nth_decode_segment by (cbn; lia). now apply Seg. }
  split; [exact S1|]. split.
  - intros H. specialize (H 9%nat 10%nat ltac:(lia)). exact H.
  - intros H10 i j (Hij & Hj).
    destruct (Nat.le_gt_cases 10 i) as [Hi|Hi]; [apply S1; lia|].
    destruct (Nat.le_gt_cases 10 j) as [Hj10|Hj10].
    + transitivity (nth 10 ([0; 0; 0; 0; 0; 0; 0; 1; 1; 1] ++ map f (zrange 10 246)) 0).
      * remember (nth 10 _ 0) as x10 eqn:Ex10. clear Ex10. rewrite app_nth1 by (cbn; lia).
        do 10 (destruct i as [|i]; [cbn; lia|]). lia.
      * apply S1. lia.
    + rewrite !app_nth1 by (cbn; lia).
      do 10 (destruct i as [|i];
             [do 10 (destruct j as [|j]; [cbn; lia|]); lia|]). lia.
Qed.

End MoreGammaTables.


Lemma CreateGammaEncodeTable_entries_witness :
  exists t,
    CreateGammaEncodeTable (fun _ => 0) (pow_ref binary32) (Fin (1 # 2)) [7] = Some t /\
    nth 64 t 0 = encode_quantize (fun _ => 0)
                   (pow_ref binary32 (encode_operand 64) (Fin (1 # 2))).
Proof.
  destruct (proj1 (proj2 (CreateGammaEncodeTable_entries (fun _ => 0) (pow_ref binary32)
                            (Fin (1 # 2)) [7])) eq_refl) as (t & Ht & _ & Hn).
  exists t. split; [exact Ht|]. apply (Hn 64). lia.
Defined.


Lemma CreateGammaDecodeTable_linear_segment_witness :
  exists t,
    CreateGammaDecodeTable (fun _ => 0) (pow_int binary64) (Fin 2) [] = Some t /\
    firstn 10 t = [0; 0; 0; 0; 0; 0; 0; 1; 1; 1] /\ nth 255 t 0 = 255.
Proof.
  eexists. split; [vm_compute; reflexivity|].
  refine ((fun H => conj (proj1 (proj2 H)) (proj2 (proj2 (proj2 H))))
            (CreateGammaDecodeTable_linear_segment (fun _ => 0) (pow_int binary64)
               (Fin 2) _ eq_refl eq_refl _)).
  vm_compute. reflexivity.
Defined.

Lemma CreateGammaDecodeTable_dip_witness :
  exists t,
    CreateGammaDecodeTable (fun _ => 0) (pow_int binary64) (Fin 3) [] = Some t /\
    nth 9 t 0 = 1 /\ nth 10 t 0 = 0.
Proof.
  eexists. split; [vm_compute; reflexivity|].
  apply (CreateGammaDecodeTable_dip (fun _ => 0) (pow_int binary64) (Fin 3)).
  - reflexivity.
  - vm_compute. reflexivity.
  - vm_compute. reflexivity.
Defined.

Lemma pow_int_square_grid idx :
  10 <= idx < 255 ->
  leb (pow_int binary64 (decode_operand idx) (Fin 2))
      (pow_int binary64 (decode_operand (idx + 1)) (Fin 2)) = true.
Proof.
  intros H.
  pose proof (zrange_forallb
                (fun idx => (idx <? 10)
                            || leb (pow_int binary64 (decode_operand idx) (Fin 2))
                                   (pow_int binary64 (decode_operand (idx + 1)) (Fin 2)))
                255 idx) as Z.
  cbv beta in Z. replace (idx <? 10) with false in Z by (symmetry; apply Z.ltb_ge; lia).
  apply Z; [vm_compute; reflexivity | lia].
Qed.

Lemma CreateGammaDecodeTable_monotone_segment_witness :
  exists t,
    CreateGammaDecodeTable (fun _ => 0) (pow_int binary64) (Fin 2) [] = Some t /\
    forall i j, (10 <= i <= j /\ j < 256)%nat -> nth i t 0 <= nth j t 0.
Proof.
  eexists. split; [vm_compute; reflexivity|].
  apply (CreateGammaDecodeTable_monotone_segment (fun _ => 0) (pow_int binary64) (Fin 2)).
  - reflexivity.
  - apply pow_int_square_grid.
  - vm_compute. reflexivity.
Defined.

(* ================================================================== *)
(** * The table lookup *)
(* ================================================================== *)

Section Lookup.

Variable fp_invalid : float -> Z.
Variables powf pow : float -> float -> float.

(** X14.  A lookup of three bytes in an encode table, or in a decode table
    built in an empty vector, is always inside the table.  From an encode
    table it returns the quantised power of each byte; from a decode table
    it returns three bytes, the first being the quantised power of the red
    input from 10 on and the entry of the linear segment below 10. *)
Theorem ApplyGamma_on_tables gamma table srcR srcG srcB :
  0 <= srcR < 256 -> 0 <= srcG < 256 -> 0 <= srcB < 256 ->
  (forall t, CreateGammaEncodeTable fp_invalid powf gamma table = Some t ->
     ApplyGamma srcR srcG srcB t
     = Some (true, (encode_quantize fp_invalid (powf (encode_operand srcR) gamma),
                    encode_quantize fp_invalid (powf (encode_operand srcG) gamma),
                    encode_quantize fp_invalid (powf (encode_operand srcB) gamma)))) /\
  (forall t, CreateGammaDecodeTable fp_invalid pow gamma [] = Some t ->
     exists r g b,
       ApplyGamma srcR srcG srcB t = Some (true, (r, g, b)) /\
       is_byte r /\ is_byte g /\ is_byte b /\
       (10 <= srcR -> r = decode_quantize fp_invalid (pow (decode_operand srcR) gamma)) /\
       (srcR < 10 -> r = decode_linear fp_invalid srcR)).
Proof.
  intros HR HG HB.
  assert (L : forall (t : list Z) x, List.length t = 256%nat -> 0 <= x < 256 ->
              nth_error t (Z.to_nat x) = Some (nth (Z.to_nat x) t 0)).
  { intros t x Ht Hx. apply nth_error_nth'. lia. }
  split.
  - intros t Ht. destruct (ltb gamma (Fin 1)) eqn:Hg.
    2:{ now rewrite (CreateGammaEncodeTable_assert fp_invalid powf gamma _ Hg) in Ht. }
    rewrite (CreateGammaEncodeTable_eq fp_invalid powf gamma table Hg) in Ht.
    remember (zrange 0 256) as rng. injection Ht as Ht. subst rng.
    assert (Len : List.length t = 256%nat)
      by (subst t; now rewrite length_map, zrange_length).
    unfold ApplyGamma. rewrite !L by assumption. subst t.
    rewrite !nth_map_zrange by lia. now rewrite !Z2Nat.id by lia.
  - intros t Ht. destruct (gtb gamma (Fin 1)) eqn:Hg.
    2:{ now rewrite (CreateGammaDecodeTable_assert fp_invalid pow gamma _ Hg) in Ht. }
    rewrite (CreateGammaDecodeTable_eq fp_invalid pow gamma [] Hg) in Ht.
    remember (zrange 0 10) as r1. remember (zrange 10 246) as r2.
    injection Ht as Ht. subst r1 r2. cbn [app] in Ht.
    assert (Len : List.length t = 256%nat).
    { subst t. now rewrite length_app, !length_map, !zrange_length. }
    assert (B : forall v, In v t -> is_byte v).
    { subst t. intros v Hv. apply in_app_or in Hv.
      destruct Hv as [Hv|Hv]; apply in_map_iff in Hv;
        destruct Hv as (idx & <- & _); apply to_uint8_byte. }
    unfold ApplyGamma. rewrite !L by assumption.
    eexists _, _, _. split; [reflexivity|].
    repeat split; try (apply B, nth_In; lia).
    + intros H10. subst t. replace srcR with (Z.of_nat (Z.to_nat srcR)) at 2 by lia.
      apply nth_decode_segment; [now rewrite length_map, zrange_length | lia].
    + intros H10. subst t. rewrite app_nth1 by (rewrite length_map, zrange_length; lia).
      rewrite nth_map_zrange by lia. f_equal. lia.
Qed.

End Lookup.

Lemma ApplyGamma_on_tables_witness :
  exists t,
    CreateGammaEncodeTable (fun _ => 0) (pow_ref binary32) (Fin (1 # 2)) [7] = Some t /\
    ApplyGamma 0 64 255 t = Some (true, (0, 121, 255)).
Proof.
  destruct (CreateGammaEncodeTable (fun _ => 0) (pow_ref binary32) (Fin (1 # 2)) [7])
    as [t|] eqn:E; [|vm_compute in E; discriminate].
  exists t. split; [reflexivity|].
  rewrite (proj1 (ApplyGamma_on_tables (fun _ => 0) (pow_ref binary32) (pow_int binary64)
                    (Fin (1 # 2)) [7] 0 64 255 ltac:(lia) ltac:(lia) ltac:(lia)) t E).
  vm_compute. reflexivity.
Defined.

(* ================================================================== *)
(** * More on the fixed-point transform *)
(* ================================================================== *)

(** The value of a finite datum after the truncation toward zero. *)
Lemma trunc_ext x a :
  trunc x = Some a ->
  exists q, ext_of x = Some (Val q) /\
            a = if sign_of q then - Qfloor (- q) else Qfloor q.
Proof.
  destruct x as [| |s|q]; simpl; intros E; try discriminate; inversion E; subst; clear E.
  - exists 0%Q. split; reflexivity.
  - exists q. split; reflexivity.
Qed.

Lemma sign_of_true q : sign_of q = true <-> (q < 0)%Q.
Proof.
  rewrite <- Qnum_neg. unfold sign_of. destruct (Qnum q); split; intros; try lia; try discriminate; reflexivity.
Qed.

Lemma sign_of_false q : sign_of q = false <-> (0 <= q)%Q.
Proof.
  split; intros H.
  - apply Qnot_lt_le. intros C. apply sign_of_true in C. congruence.
  - destruct (sign_of q) eqn:E; trivial. apply sign_of_true in E. lra.
Qed.

(** Truncation toward zero is monotone on the rationals. *)
Lemma truncq_mono p q :
  (p <= q)%Q ->
  (if sign_of p then - Qfloor (- p) else Qfloor p)
  <= (if sign_of q then - Qfloor (- q) else Qfloor q).
Proof.
  intros H. destruct (sign_of p) eqn:Sp, (sign_of q) eqn:Sq.
  - assert (Qfloor (- q) <= Qfloor (- p)) by (apply Qfloor_resp_le; lra). lia.
  - apply sign_of_true in Sp. apply sign_of_false in Sq.
    assert (0 <= Qfloor (- p)) by (change 0 with (Qfloor 0); apply Qfloor_resp_le; lra).
    assert (0 <= Qfloor q) by (change 0 with (Qfloor 0); apply Qfloor_resp_le; lra).
    lia.
  - apply sign_of_true in Sq. apply sign_of_false in Sp. lra.
  - now apply Qfloor_resp_le.
Qed.

Lemma trunc_between x (lo hi : Z) :
  fle (Fin (inject_Z lo)) x -> fle x (Fin (inject_Z hi + (1 # 2))) ->
  lo <= 0 <= hi ->
  exists z, trunc x = Some z /\ lo <= z <= hi.
Proof.
  unfold fle. simpl. intros L H B.
  destruct x as [|[]|s|q]; simpl in L, H; try contradiction.
  - exists 0. split; [reflexivity | lia].
  - exists (if sign_of q then - Qfloor (- q) else Qfloor q). split; [reflexivity|].
    pose proof (truncq_mono _ _ L) as T1.
    pose proof (truncq_mono _ _ H) as T2.
    replace (if sign_of (inject_Z lo) then - Qfloor (- inject_Z lo) else Qfloor (inject_Z lo))
      with lo in T1.
    2:{ destruct (sign_of (inject_Z lo)).
        - rewrite <- inject_Z_opp, Qfloor_Z. lia.
        - now rewrite Qfloor_Z. }
    assert (S : sign_of (inject_Z hi + (1 # 2)) = false).
    { apply sign_of_false. assert (0 <= inject_Z hi)%Q by (change 0%Q with (inject_Z 0); apply inject_Z_le; lia). lra. }
    rewrite S in T2.
    assert (Qfloor (inject_Z hi + (1 # 2)) = hi).
    { apply Z.le_antisymm.
      - assert (Qfloor (inject_Z hi + (1 # 2)) < hi + 1); [|lia].
        rewrite Zlt_Qlt. pose proof (Qfloor_le (inject_Z hi + (1 # 2))) as F.
        rewrite inject_Z_plus. change (inject_Z 1) with 1%Q. lra.
      - rewrite <- (Qfloor_Z hi) at 1. apply Qfloor_resp_le. lra. }
    lia.
Qed.

Lemma CLIP_COLOR_mono a b : a <= b -> CLIP_COLOR a 255 <= CLIP_COLOR b 255.
Proof.
  intros H. unfold CLIP_COLOR.
  destruct (Z.gtb_spec a 255), (Z.gtb_spec b 255), (Z.gtb_spec a 0), (Z.gtb_spec b 0); lia.
Qed.

(** Removes the wrap-around of every 32-bit operation whose operand is
    shown to be in range, innermost first. *)
Ltac int32_exact :=
  repeat match goal with
         | |- context [int32 ?t] =>
             lazymatch t with
             | context [int32 _] => fail
             | _ => rewrite (int32_small t) by (change (2 ^ 31) with 2147483648; lia)
             end
         end.

Section MoreTransform.

Variable fp_invalid : float -> Z.

(** The float that [fixed10] converts is monotone in the coefficient. *)
Lemma fixed10_operand_mono c c' :
  fle c c' ->
  fle (add binary32 (mul binary32 c (of_Z binary32 1024)) (lit binary32 5 10))
      (add binary32 (mul binary32 c' (of_Z binary32 1024)) (lit binary32 5 10)).
Proof.
  intros H. change (lit binary32 5 10) with (Fin (1 # 2)).
  change (of_Z binary32 1024) with (Fin 1024).
  apply add_const_r_mono; [apply prec32 | apply feq_leb; reflexivity |].
  apply mul_const_r_mono; [apply prec32 | reflexivity | exact H].
Qed.

(** For coefficients between -2048 and 2048 the converted float truncates
    to an integer between -2^21 and 2^21, which is what [fixed10] returns
    whatever an out-of-range conversion would leave. *)
Lemma fixed10_in_range (c : float) :
  leb (Fin (- (2048 # 1))) c = true -> leb c (Fin 2048) = true ->
  exists z,
    trunc (add binary32 (mul binary32 c (of_Z binary32 1024)) (lit binary32 5 10)) = Some z /\
    - 2 ^ 21 <= z <= 2 ^ 21 /\
    forall fp, fixed10 fp c = z.
Proof.
  intros L H. apply leb_fle in L, H.
  destruct (trunc_between
              (add binary32 (mul binary32 c (of_Z binary32 1024)) (lit binary32 5 10))
              (- 2 ^ 21) (2 ^ 21)) as (z & Ez & Bz); [| |lia|].
  - eapply fle_trans; [|apply fixed10_operand_mono, L].
    apply (proj1 (leb_fle _ _)). vm_compute. reflexivity.
  - eapply fle_trans; [apply fixed10_operand_mono, H|].
    apply (proj1 (leb_fle _ _)). vm_compute. reflexivity.
  - exists z. split; [exact Ez|]. split; [exact Bz|].
    intros fp. unfold fixed10, to_int32, float_to_int. rewrite Ez.
    replace ((- 2 ^ 31 <=? z) && (z <=? 2 ^ 31 - 1)) with true; [reflexivity|].
    symmetry. apply andb_true_iff. split; apply Z.leb_le; lia.
Qed.

Lemma fixed10_le (c c' : float) :
  leb (Fin (- (2048 # 1))) c = true -> leb c c' = true -> leb c' (Fin 2048) = true ->
  - 2 ^ 21 <= fixed10 fp_invalid c /\
  fixed10 fp_invalid c <= fixed10 fp_invalid c' /\
  fixed10 fp_invalid c' <= 2 ^ 21.
Proof.
  intros L M H.
  assert (L' : leb (Fin (- (2048 # 1))) c' = true)
    by (apply leb_fle; eapply fle_trans; apply leb_fle; eassumption).
  assert (H' : leb c (Fin 2048) = true)
    by (apply leb_fle; eapply fle_trans; apply leb_fle; eassumption).
  destruct (fixed10_in_range c L H') as (z & Ez & Bz & F).
  destruct (fixed10_in_range c' L' H) as (z' & Ez' & Bz' & F').
  rewrite F, F'. repeat split; try lia.
  destruct (trunc_ext _ _ Ez) as (q & Eq & ->). destruct (trunc_ext _ _ Ez') as (q' & Eq' & ->).
  apply truncq_mono.
  pose proof (fixed10_operand_mono c c' (proj1 (leb_fle _ _) M)) as O. unfold fle in O.
  rewrite Eq, Eq' in O. exact O.
Qed.

(** X15.  For coefficients between -2048 and 2048 the conversion to 10-bit
    fixed point stays inside [int32_t] (it does not depend on what an
    out-of-range conversion leaves), lies between -2^21 and 2^21, and is
    monotone in the coefficient. *)
Theorem fixed10_monotone (other_invalid : float -> Z) (c c' : float) :
  leb (Fin (- (2048 # 1))) c = true -> leb c c' = true -> leb c' (Fin 2048) = true ->
  - 2 ^ 21 <= fixed10 fp_invalid c /\
  fixed10 fp_invalid c <= fixed10 fp_invalid c' /\
  fixed10 fp_invalid c' <= 2 ^ 21 /\
  fixed10 other_invalid c = fixed10 fp_invalid c.
Proof.
  intros L M H. destruct (fixed10_le c c' L M H) as (B1 & B2 & B3).
  repeat split; try assumption.
  assert (H' : leb c (Fin 2048) = true)
    by (apply leb_fle; eapply fle_trans; apply leb_fle; eassumption).
  destruct (fixed10_in_range c L H') as (z & _ & _ & F). now rewrite !F.
Qed.

(** One row of the accumulation with coefficients and inputs that cannot
    overflow: it is the exact sum, and monotone in all six. *)
Lemma row_mono m0 m1 m2 n0 n1 n2 x y z x' y' z' :
  0 <= m0 <= n0 -> 0 <= m1 <= n1 -> 0 <= m2 <= n2 ->
  n0 <= 2 ^ 21 -> n1 <= 2 ^ 21 -> n2 <= 2 ^ 21 ->
  0 <= x <= x' -> 0 <= y <= y' -> 0 <= z <= z' ->
  x' <= 255 -> y' <= 255 -> z' <= 255 ->
  uint8 (CLIP_COLOR (Z.shiftr (add32 (add32 (add32 (mul32 m0 x) (mul32 m1 y)) (mul32 m2 z)) 512) 10) 255)
  <= uint8 (CLIP_COLOR (Z.shiftr (add32 (add32 (add32 (mul32 n0 x') (mul32 n1 y')) (mul32 n2 z')) 512) 10) 255).
Proof.
  intros. rewrite !uint8_small by apply CLIP_COLOR_range.
  assert (B : forall m v, 0 <= m <= 2 ^ 21 -> 0 <= v <= 255 -> 0 <= m * v <= 2 ^ 21 * 255)
    by (intros; split; [apply Z.mul_nonneg_nonneg | apply Z.mul_le_mono_nonneg]; lia).
  pose proof (B m0 x ltac:(lia) ltac:(lia)). pose proof (B m1 y ltac:(lia) ltac:(lia)).
  pose proof (B m2 z ltac:(lia) ltac:(lia)). pose proof (B n0 x' ltac:(lia) ltac:(lia)).
  pose proof (B n1 y' ltac:(lia) ltac:(lia)). pose proof (B n2 z' ltac:(lia) ltac:(lia)).
  assert (m0 * x <= n0 * x') by (apply Z.mul_le_mono_nonneg; lia).
  assert (m1 * y <= n1 * y') by (apply Z.mul_le_mono_nonneg; lia).
  assert (m2 * z <= n2 * z') by (apply Z.mul_le_mono_nonneg; lia).
  unfold add32, mul32.
  remember (m0 * x) as a0. remember (m1 * y) as a1. remember (m2 * z) as a2.
  remember (n0 * x') as b0. remember (n1 * y') as b1. remember (n2 * z') as b2.
  change (2 ^ 21 * 255) with 534773760 in *.
  int32_exact.
  rewrite !Z.shiftr_div_pow2 by lia.
  apply CLIP_COLOR_mono, Z.div_le_mono; lia.
Qed.

(** X16.  With coefficients between 0 and 2048, [TransformR8G8B8] is
    monotone: raising any input byte or any coefficient never lowers any
    output channel. *)
Theorem TransformR8G8B8_monotone (A B : mat3) (r g b r' g' b' : Z) :
  (forall i j, (i < 3)%nat -> (j < 3)%nat ->
     leb (Zero false) (A i j) = true /\ leb (A i j) (B i j) = true /\
     leb (B i j) (Fin 2048) = true) ->
  0 <= r <= r' -> r' <= 255 -> 0 <= g <= g' -> g' <= 255 -> 0 <= b <= b' -> b' <= 255 ->
  let '(_, (x, y, z)) := TransformR8G8B8 fp_invalid r g b A in
  let '(_, (x', y', z')) := TransformR8G8B8 fp_invalid r' g' b' B in
  x <= x' /\ y <= y' /\ z <= z'.
Proof.
  intros HM Hr Hr' Hg Hg' Hb Hb'.
  assert (M : forall i j, (i < 3)%nat -> (j < 3)%nat ->
              0 <= fixed10 fp_invalid (A i j) <= fixed10 fp_invalid (B i j) /\
              fixed10 fp_invalid (B i j) <= 2 ^ 21).
  { intros i j Hi Hj. destruct (HM i j Hi Hj) as (H0 & H1 & H2).
    assert (L : leb (Fin (- (2048 # 1))) (Zero false) = true) by reflexivity.
    assert (Z0 : leb (Zero false) (B i j) = true).
    { apply leb_fle. eapply fle_trans; apply leb_fle; eassumption. }
    assert (A2 : leb (A i j) (Fin 2048) = true).
    { apply leb_fle. eapply fle_trans; apply leb_fle; eassumption. }
    pose proof (fixed10_le _ _ L H0 A2) as (_ & P & _).
    pose proof (fixed10_le (A i j) (B i j)) as (_ & Q & R);
      [apply leb_fle; eapply fle_trans; apply leb_fle; eassumption | assumption | assumption |].
    rewrite fixed10_zero in P. lia. }
  unfold TransformR8G8B8, TransformR8G8B8_clipped. cbv zeta.
  repeat split; apply row_mono; try lia; apply M; lia.
Qed.

(** One row of a matrix of zeros and ones: the sum of the selected inputs. *)
Lemma selection_row c0 c1 c2 x y z :
  0 <= x <= 255 -> 0 <= y <= 255 -> 0 <= z <= 255 ->
  uint8 (CLIP_COLOR (Z.shiftr (add32 (add32 (add32
           (mul32 (fixed10 fp_invalid (if c0 : bool then Fin 1 else Zero false)) x)
           (mul32 (fixed10 fp_invalid (if c1 : bool then Fin 1 else Zero false)) y))
           (mul32 (fixed10 fp_invalid (if c2 : bool then Fin 1 else Zero false)) z)) 512) 10) 255)
  = Z.min 255 (selected c0 x + selected c1 y + selected c2 z).
Proof.
  intros Hx Hy Hz. rewrite uint8_small by apply CLIP_COLOR_range.
  set (s := selected c0 x + selected c1 y + selected c2 z).
  assert (Hs : 0 <= s <= 765) by (subst s; unfold selected; destruct c0, c1, c2; lia).
  assert (E : add32 (add32 (add32
           (mul32 (fixed10 fp_invalid (if c0 then Fin 1 else Zero false)) x)
           (mul32 (fixed10 fp_invalid (if c1 then Fin 1 else Zero false)) y))
           (mul32 (fixed10 fp_invalid (if c2 then Fin 1 else Zero false)) z)) 512
          = 1024 * s + 512).
  { subst s. unfold add32, mul32, selected.
    destruct c0, c1, c2; rewrite ?fixed10_one, ?fixed10_zero;
      int32_exact; lia. }
  rewrite E, Z.shiftr_div_pow2 by lia. change (2 ^ 10) with 1024.
  replace ((1024 * s + 512) / 1024) with s
    by (apply (Z.div_unique _ _ _ 512); lia).
  unfold CLIP_COLOR. destruct (Z.gtb_spec s 255); [lia|].
  destruct (Z.gtb_spec s 0); lia.
Qed.

(** X17.  On a matrix of zeros and ones every output channel is the sum of
    the input bytes its row selects, saturated at 255; a permutation matrix
    therefore permutes the three bytes exactly. *)
Theorem TransformR8G8B8_selection (sel : nat -> nat -> bool) (srcR srcG srcB : Z) :
  0 <= srcR <= 255 -> 0 <= srcG <= 255 -> 0 <= srcB <= 255 ->
  TransformR8G8B8 fp_invalid srcR srcG srcB (selection3 sel)
  = (true,
     (Z.min 255 (selected (sel 0 0) srcR + selected (sel 0 1) srcG + selected (sel 0 2) srcB),
      Z.min 255 (selected (sel 1 0) srcR + selected (sel 1 1) srcG + selected (sel 1 2) srcB),
      Z.min 255 (selected (sel 2 0) srcR + selected (sel 2 1) srcG + selected (sel 2 2) srcB)))%nat.
Proof.
  intros HR HG HB. unfold TransformR8G8B8, TransformR8G8B8_clipped, selection3. cbv zeta.
  rewrite !selection_row by assumption. reflexivity.
Qed.

End MoreTransform.

Lemma fixed10_monotone_witness :
  fixed10 (fun _ => 0) (Fin (- (1 # 4))) <= fixed10 (fun _ => 0) (Fin (3 # 8)) /\
  fixed10 (fun _ => 7) (Fin (- (1 # 4))) = fixed10 (fun _ => 0) (Fin (- (1 # 4))).
Proof.
  pose proof (fixed10_monotone (fun _ => 0) (fun _ => 7) (Fin (- (1 # 4))) (Fin (3 # 8))
                eq_refl eq_refl eq_refl) as (_ & H & _ & E).
  split; [exact H | exact E].
Defined.

Lemma TransformR8G8B8_monotone_witness :
  let '(_, (x, y, z)) := TransformR8G8B8 (fun _ => 0) 10 20 30 identity3 in
  let '(_, (x', y', z')) :=
    TransformR8G8B8 (fun _ => 0) 10 200 30 (fun i j => if Nat.eqb i j then Fin 2 else Fin (1 # 4)) in
  x <= x' /\ y <= y' /\ z <= z'.
Proof.
  apply (TransformR8G8B8_monotone (fun _ => 0) identity3
           (fun i j => if Nat.eqb i j then Fin 2 else Fin (1 # 4)));
    try lia.
  intros i j _ _. unfold identity3. destruct (Nat.eqb i j); repeat split.
Defined.

Lemma TransformR8G8B8_selection_witness :
  TransformR8G8B8 (fun _ => 0) 10 200 90 (selection3 (fun i j => Nat.eqb (i + j) 2 || Nat.eqb i 1))
  = (true, (90, 255, 10)).
Proof.
  rewrite (TransformR8G8B8_selection (fun _ => 0)) by lia. reflexivity.
Defined.
